(** * UGameData: the content resolver of the narrated tour

    A shallow embedding of [GameData.cpp] (class [UGameData]): the four
    loaders (instructions, checkpoints, learn-more, quiz), the quiz
    populator and the name-resolution helpers, followed by the properties
    the specification states about them.

    Conventions of the embedding.
    - An [FString] is a Rocq [string].  [FString::operator==] is the
      engine's comparison ([UnrealString.h]: [Equals(Other,
      ESearchCase::IgnoreCase)], that is [Stricmp]), which ignores the case
      of ASCII letters; [FName::operator==] ([NameTypes.h]) compares
      comparison indices, which ignore case as well.
    - A [UObject*] is an [option] of an address; [None] is [nullptr].
      Pointer equality is equality of addresses.  What the code reads
      through a pointer ([GetName], [Tags]) is looked up in the environment.
    - A [TMap] is a [gmap]; [TMap::Add] on a key already present replaces
      its value, which is [insert].
    - A [TArray] whose capacity the code never inspects is a [list].  The
      options of a quiz question keep their slack, the slots allocated
      beyond the [Num()] elements; the local copy the code asks [Max()] of
      is sized by the copy constructor.
    - [operator[]] is range-checked, as in a build with checks enabled: an
      index outside [0, Num) stops the call with [ArrayIndexOutOfBounds].
    - The function-local [static] of [LoadCheckpointsData] and the on-screen
      debug messages are the two components of the program state, threaded
      by a small state-and-error monad.
    - The structures of [JsonHelper.h] are records with the fields the code
      reads or writes; a field name that several structures share carries
      the initials of its structure.
    - The widgets of [LoadLearnMoreProgressBar] are kept in a widget tree of
      their own, threaded by a second monad whose failure is the
      dereference of a null pointer. *)

From Stdlib Require Import ZArith QArith Ascii String.
From stdpp Require Import gmap strings list fin_maps.

Local Open Scope string_scope.
Local Open Scope list_scope.
Local Open Scope Z_scope.

(** ** Engine strings *)

Definition FString := string.

(** [TChar::ToLower] restricted to ASCII, as [FCString::Stricmp] applies it. *)
Definition ToLowerAscii (c : ascii) : ascii :=
  let n := nat_of_ascii c in
  if ((65 <=? n) && (n <=? 90))%nat then ascii_of_nat (n + 32) else c.

(** [FString::operator==] is [Equals(Other, ESearchCase::IgnoreCase)], that
    is [FCString::Stricmp(...) == 0]: a character-wise comparison of the
    lower-cased characters. *)
Fixpoint FString_eqb (a b : FString) : bool :=
  match a, b with
  | EmptyString, EmptyString => true
  | String c a', String d b' =>
      Ascii.eqb (ToLowerAscii c) (ToLowerAscii d) && FString_eqb a' b'
  | _, _ => false
  end.

(** An [FName] is kept by the text that spells it ([ToString]).  Two
    names are equal when their comparison indices are, and the name table
    folds case: [FName("CP_1") == FName("cp_1")].  The name made from the
    empty string is [NAME_None], which is spelled "None". *)
Definition FName := FString.
Definition MakeFName (s : FString) : FName :=
  match s with
  | EmptyString => "None"
  | _ => s
  end.
Definition FName_eqb (a b : FName) : bool := FString_eqb a b.

(** The case-folded spelling, used to reason about [FString_eqb]. *)
Fixpoint CaseFold (s : FString) : FString :=
  match s with
  | EmptyString => EmptyString
  | String c s' => String (ToLowerAscii c) (CaseFold s')
  end.

(** ** The instruction kinds *)

(** [enum class Instructions], in the order [StringToInstructions] lists
    them (the declaration is in [JsonHelper.h]). *)
Inductive Instructions :=
  | LearnMoreProposed
  | LearnMoreCompleted
  | HowToSelection
  | QuizProposed
  | LearnMoreNavigation
  | MiniGameQuiz_Context
  | MiniGameQuiz_QuestionInstruction
  | Inactivty_Instruction.

#[global] Instance Instructions_eq_dec : EqDecision Instructions.
Proof. solve_decision. Defined.

Definition Instructions_to_nat (k : Instructions) : nat :=
  match k with
  | LearnMoreProposed => 0
  | LearnMoreCompleted => 1
  | HowToSelection => 2
  | QuizProposed => 3
  | LearnMoreNavigation => 4
  | MiniGameQuiz_Context => 5
  | MiniGameQuiz_QuestionInstruction => 6
  | Inactivty_Instruction => 7
  end%nat.

Definition Instructions_of_nat (n : nat) : option Instructions :=
  match n with
  | 0 => Some LearnMoreProposed
  | 1 => Some LearnMoreCompleted
  | 2 => Some HowToSelection
  | 3 => Some QuizProposed
  | 4 => Some LearnMoreNavigation
  | 5 => Some MiniGameQuiz_Context
  | 6 => Some MiniGameQuiz_QuestionInstruction
  | 7 => Some Inactivty_Instruction
  | _ => None
  end%nat.

#[global] Program Instance Instructions_countable : Countable Instructions :=
  inj_countable Instructions_to_nat Instructions_of_nat _.
Next Obligation. by intros []. Qed.

Definition StringToInstructions (InstructionType : FString) : Instructions :=
  if FString_eqb InstructionType "LearnMoreProposed" then LearnMoreProposed
  else if FString_eqb InstructionType "LearnMoreCompleted" then LearnMoreCompleted
  else if FString_eqb InstructionType "HowToSelection" then HowToSelection
  else if FString_eqb InstructionType "QuizProposed" then QuizProposed
  else if FString_eqb InstructionType "LearnMoreNavigation" then LearnMoreNavigation
  else if FString_eqb InstructionType "MiniGameQuiz_Context" then MiniGameQuiz_Context
  else if FString_eqb InstructionType "MiniGameQuiz_QuestionInstruction"
       then MiniGameQuiz_QuestionInstruction
  else if FString_eqb InstructionType "Inactivity_Instruction" then Inactivty_Instruction
  else LearnMoreProposed.

(** The eight strings [StringToInstructions] tests for, each with the value
    its branch returns. *)
Definition RecognizedInstructions : list (FString * Instructions) :=
  [ ("LearnMoreProposed", LearnMoreProposed);
    ("LearnMoreCompleted", LearnMoreCompleted);
    ("HowToSelection", HowToSelection);
    ("QuizProposed", QuizProposed);
    ("LearnMoreNavigation", LearnMoreNavigation);
    ("MiniGameQuiz_Context", MiniGameQuiz_Context);
    ("MiniGameQuiz_QuestionInstruction", MiniGameQuiz_QuestionInstruction);
    ("Inactivity_Instruction", Inactivty_Instruction) ].

(** ** Pointers, arrays and the range check *)

(** A [UObject*]: the address of a live object, or [nullptr]. *)
Definition Addr := nat.
Definition Ptr := option Addr.

(** What stops a call: the assertion of [TArray::RangeCheck]. *)
Inductive Outcome (A : Type) : Type :=
  | Returns (a : A)
  | ArrayIndexOutOfBounds (Index : Z) (ArrayNum : Z).
Arguments Returns {A} a.
Arguments ArrayIndexOutOfBounds {A} Index ArrayNum.

#[global] Instance Outcome_ret : MRet Outcome := fun A a => Returns a.
#[global] Instance Outcome_bind : MBind Outcome := fun A B f m =>
  match m with
  | Returns a => f a
  | ArrayIndexOutOfBounds i n => ArrayIndexOutOfBounds i n
  end.

(** [Array[Index]] on an array of [Num] elements. *)
Definition At {A : Type} (Array : list A) (Index : Z) : Outcome A :=
  if (0 <=? Index) && (Index <? Z.of_nat (length Array))
  then match Array !! Z.to_nat Index with
       | Some x => Returns x
       | None => ArrayIndexOutOfBounds Index (Z.of_nat (length Array))
       end
  else ArrayIndexOutOfBounds Index (Z.of_nat (length Array)).

(** A [TArray] with its allocation: [Num()] elements and [Max()] slots. *)
Record TArray (A : Type) : Type := MkTArray {
  Elements : list A;
  Slack : nat
}.
Arguments MkTArray {A} Elements Slack.
Arguments Elements {A} _.
Arguments Slack {A} _.

(** The copy constructor: the copy holds the same elements and is allocated
    for its [Num()] elements, whatever the capacity of the array copied. *)
Definition TArray_copy {A : Type} (Other : TArray A) : TArray A :=
  MkTArray (Elements Other) 0.

Definition Num {A : Type} (a : TArray A) : Z := Z.of_nat (length (Elements a)).
Definition Max {A : Type} (a : TArray A) : Z := Z.of_nat (length (Elements a) + Slack a).

(** ** The decoded files (the structures of [JsonHelper.h], by the fields
    the loaders read) *)

Record FInstructionRecord := {
  InstructionType : FString;
  I_TitleCaptionKey : FString;
  I_CaptionKeys : list FString;
  I_EnglishNarrationSoundNames : list FString;
  I_FrenchNarrationSoundNames : list FString
}.
Record FInstructionsData := { I_Data : list FInstructionRecord }.

Record FCheckpointRecord := {
  CheckpointName : FString;
  CheckpointFrameNumber : Z;
  C_TitleCaptionKey : FString;
  C_CaptionKeys : list FString;
  C_EnglishNarrationSoundNames : list FString;
  C_FrenchNarrationSoundNames : list FString;
  ShouldStopCamera : bool;
  HasLearnMoreOption : bool;
  HasQuiz : bool;
  NumOfLearnMoreOption : Z
}.
Record FCheckpointsData := { C_Data : list FCheckpointRecord }.

Record FLearnMoreRecord := {
  L_CorrespondingCPIndex : Z;
  L_TitleCaptionKey : FString;
  L_CaptionKeys : list FString;
  L_EnglishNarrationSoundNames : list FString;
  L_FrenchNarrationSoundNames : list FString;
  ImagesNames : list FString;
  ImagesSources : list FString
}.
Record FLearnMoreData := { L_Data : list FLearnMoreRecord }.

Record FQuizQuestionOption := {
  OptionName : FString;
  OptionDescription : FString;
  EnglishNarrationSound : FString;
  FrenchNarrationSound : FString
}.
Record FQuizQuestionOptions := { Options : TArray FQuizQuestionOption }.
Record FQuizQuestion := { QuestionOptions : FQuizQuestionOptions }.
Record FQuizQuestions := { m_Questions : list FQuizQuestion }.

(** ** The structures the loaders return *)

Record FInstructionNarration := {
  IN_TitleKey : FString;
  IN_Keys : list FString;
  IN_EnglishNarrationSounds : list Ptr;
  IN_FrenchNarrationSounds : list Ptr
}.
Record FInstructionGameData := {
  InstructionKeyMap : gmap Instructions FInstructionNarration
}.

Record FNarrationKeys := {
  NK_TitleKey : FString;
  NK_Keys : list FString;
  NK_EnglishNarrationSounds : list Ptr;
  NK_FrenchNarrationSounds : list Ptr;
  m_ShouldStopCamera : bool;
  m_HasLearnMoreOption : bool;
  m_HasQuiz : bool;
  m_NumOfLearnMoreOptions : Z
}.
Record FCheckpointsGameData := {
  ActorsToFollow : list Ptr;
  ActorFrameMap : gmap Ptr Z;
  ActorKeyMap : gmap Ptr FNarrationKeys
}.

Record FLearnMoreNarration := {
  m_FrenchNarrationSounds : list Ptr;
  m_EnglishNarrationSounds : list Ptr;
  m_Images : list Ptr;
  CorrespondingCPIndex : Z;
  m_TitleKey : FString;
  m_Keys : list FString;
  m_SourceName : FString
}.
Record FLearnMoreGameData := { LearnMoreData : list FLearnMoreNarration }.
Record FTilesGameData := { LearnMoreKeyMap : gmap Z FLearnMoreNarration }.

(** A default-constructed [FLearnMoreNarration] (empty containers; the
    integer member is taken as zero). *)
Definition FLearnMoreNarration_default : FLearnMoreNarration :=
  {| m_FrenchNarrationSounds := []; m_EnglishNarrationSounds := [];
     m_Images := []; CorrespondingCPIndex := 0; m_TitleKey := "";
     m_Keys := []; m_SourceName := "" |}.

(** ** The environment of a call and the program state *)

Inductive FColor := Green.

(** One call of [AddOnScreenDebugMessage(Key, TimeToDisplay, Color, Message)];
    the time is in seconds. *)
Record DebugMessage := {
  Key : Z;
  TimeToDisplay : Z;
  DisplayColor : FColor;
  DebugText : FString
}.

#[global] Instance FColor_eq_dec : EqDecision FColor.
Proof. solve_decision. Defined.
#[global] Instance DebugMessage_eq_dec : EqDecision DebugMessage.
Proof. solve_decision. Defined.

(** What the code reads and does not own: the engine object, the objects
    behind the pointers, and the decoder [m_JsonHelper] with the files it
    reads.  [ReadStructFromJsonFile<T>(path, success, message)] gives the
    structure and sets the two out-parameters. *)
Record Env := {
  GEngine : bool;
  GetName : Addr -> FString;
  Tags : Addr -> list FName;
  ProjectContentDir : FString;
  ReadInstructionsData : FString -> FInstructionsData * bool * FString;
  ReadCheckpointsData : FString -> FCheckpointsData * bool * FString;
  ReadLearnMoreData : FString -> FLearnMoreData * bool * FString;
  ReadQuizQuestions : FString -> FQuizQuestions * bool * FString
}.

(** The state that outlives a call: the [static FCheckpointsData
    DataStructure] of [LoadCheckpointsData] ([None] until its initialiser
    has run) and the messages put on screen so far. *)
Record ProgramState := {
  DataStructure : option FCheckpointsData;
  OnScreenDebugMessages : list DebugMessage
}.

Definition InitialState : ProgramState :=
  {| DataStructure := None; OnScreenDebugMessages := [] |}.

(** A call: from the state before to the value and the state after, or to
    a failed range check. *)
Definition Exec (A : Type) : Type := ProgramState -> Outcome (A * ProgramState).

#[global] Instance Exec_ret : MRet Exec := fun A a st => Returns (a, st).
#[global] Instance Exec_bind : MBind Exec := fun A B f m st =>
  match m st with
  | Returns (a, st') => f a st'
  | ArrayIndexOutOfBounds i n => ArrayIndexOutOfBounds i n
  end.

Definition lift {A : Type} (m : Outcome A) : Exec A := fun st =>
  match m with
  | Returns a => Returns (a, st)
  | ArrayIndexOutOfBounds i n => ArrayIndexOutOfBounds i n
  end.

(** The value a completed call returned. *)
Definition value {A : Type} (r : Outcome (A * ProgramState)) : option A :=
  match r with
  | Returns (a, _) => Some a
  | ArrayIndexOutOfBounds _ _ => None
  end.

(** The state a completed call left. *)
Definition state {A : Type} (r : Outcome (A * ProgramState)) : option ProgramState :=
  match r with
  | Returns (_, st) => Some st
  | ArrayIndexOutOfBounds _ _ => None
  end.

(** The messages a completed call left on screen. *)
Definition screen {A : Type} (r : Outcome (A * ProgramState)) : option (list DebugMessage) :=
  match r with
  | Returns (_, st) => Some (OnScreenDebugMessages st)
  | ArrayIndexOutOfBounds _ _ => None
  end.

(** ** The operations of [UGameData] *)

Section UGameData.
Context (E : Env).

(** [if (GEngine) GEngine->AddOnScreenDebugMessage(-1, 60.0f, FColor::Green, message)] *)
Definition AddOnScreenDebugMessage (message : FString) : Exec unit := fun st =>
  if GEngine E
  then Returns (tt, {| DataStructure := DataStructure st;
                       OnScreenDebugMessages :=
                         OnScreenDebugMessages st ++
                         [{| Key := -1; TimeToDisplay := 60;
                             DisplayColor := Green; DebugText := message |}] |})
  else Returns (tt, st).

(** *** Getters *)

(** The loop of [GetActorByName]; the triple is the returned pointer and
    the two out-parameters [success] and [infoMessage]. *)
Fixpoint GetActorByName (ActorName : FString) (CPActors : list Ptr)
    : Outcome (Ptr * bool * FString) :=
  match CPActors with
  | [] => Returns (None, false, "Actor Not Found")
  | cp :: rest =>
      match cp with
      | Some a =>
          tag ← At (Tags E a) 0;
          if FName_eqb tag (MakeFName ActorName)
          then Returns (cp, true, "Actor Found")
          else GetActorByName ActorName rest
      | None => GetActorByName ActorName rest
      end
  end.

(** [sounds.Contains(Sound)]: pointer equality. *)
Definition Contains (l : list Ptr) (p : Ptr) : bool := bool_decide (p ∈ l).

(** The inner loop of [GetSoundByName]: one pass over the pool for one
    requested name, appending to [sounds]. *)
Fixpoint GetSoundByName_scan (soundName : FString) (NarrativeSounds : list Ptr)
    (sounds : list Ptr) : list Ptr :=
  match NarrativeSounds with
  | [] => sounds
  | Sound :: rest =>
      match Sound with
      | Some a =>
          if FString_eqb (GetName E a) soundName && negb (Contains sounds Sound)
          then GetSoundByName_scan soundName rest (sounds ++ [Sound])
          else GetSoundByName_scan soundName rest sounds
      | None => GetSoundByName_scan soundName rest sounds
      end
  end.

Definition GetSoundByName (SoundNames : list FString) (NarrativeSounds : list Ptr)
    : list Ptr :=
  fold_left (fun sounds soundName => GetSoundByName_scan soundName NarrativeSounds sounds)
            SoundNames [].

(** The inner loop of [GetImageByName]. *)
Fixpoint GetImageByName_scan (imageName : FString) (Images : list Ptr)
    (foundImages : list Ptr) : list Ptr :=
  match Images with
  | [] => foundImages
  | Image :: rest =>
      match Image with
      | Some a =>
          if FString_eqb (GetName E a) imageName && negb (Contains foundImages Image)
          then GetImageByName_scan imageName rest (foundImages ++ [Image])
          else GetImageByName_scan imageName rest foundImages
      | None => GetImageByName_scan imageName rest foundImages
      end
  end.

Definition GetImageByName (ImageNames : list FString) (Images : list Ptr) : list Ptr :=
  fold_left (fun foundImages imageName => GetImageByName_scan imageName Images foundImages)
            ImageNames [].

(** *** Instructions *)

(** What one iteration of the loop of [LoadInstructionsData] builds. *)
Definition InstructionNarrationOf (NarrativeSounds : list Ptr) (r : FInstructionRecord)
    : FInstructionNarration :=
  {| IN_TitleKey := I_TitleCaptionKey r;
     IN_Keys := fold_left (fun keys captionKey => keys ++ [captionKey]) (I_CaptionKeys r) [];
     IN_EnglishNarrationSounds :=
       GetSoundByName (I_EnglishNarrationSoundNames r) NarrativeSounds;
     IN_FrenchNarrationSounds :=
       GetSoundByName (I_FrenchNarrationSoundNames r) NarrativeSounds |}.

Fixpoint LoadInstructionsData_loop (success : bool) (message : FString)
    (NarrativeSounds : list Ptr) (Data : list FInstructionRecord)
    (instructionData : FInstructionGameData) : Exec FInstructionGameData :=
  match Data with
  | [] => mret instructionData
  | r :: rest =>
      let narrationKeys := InstructionNarrationOf NarrativeSounds r in
      let instructionData' :=
        {| InstructionKeyMap :=
             <[StringToInstructions (InstructionType r) := narrationKeys]>
               (InstructionKeyMap instructionData) |} in
      _ ← (if negb success then AddOnScreenDebugMessage message else mret tt);
      LoadInstructionsData_loop success message NarrativeSounds rest instructionData'
  end.

Definition LoadInstructionsData (World : Ptr) (path : FString)
    (NarrativeSounds : list Ptr) : Exec FInstructionGameData :=
  let '(dataStructure, success, message) := ReadInstructionsData E path in
  LoadInstructionsData_loop success message NarrativeSounds (I_Data dataStructure)
    {| InstructionKeyMap := ∅ |}.

(** *** Automated tour *)

(** The initialiser of the [static]: it runs on the first call only. *)
Definition CheckpointsStatic (path : FString) : Exec FCheckpointsData := fun st =>
  match DataStructure st with
  | Some d => Returns (d, st)
  | None =>
      let '(d, success, message) := ReadCheckpointsData E path in
      Returns (d, {| DataStructure := Some d;
                     OnScreenDebugMessages := OnScreenDebugMessages st |})
  end.

Definition NarrationKeysOf (NarrativeSounds : list Ptr) (r : FCheckpointRecord)
    : FNarrationKeys :=
  {| NK_TitleKey := C_TitleCaptionKey r;
     NK_Keys := fold_left (fun keys captionKey => keys ++ [captionKey]) (C_CaptionKeys r) [];
     NK_EnglishNarrationSounds :=
       GetSoundByName (C_EnglishNarrationSoundNames r) NarrativeSounds;
     NK_FrenchNarrationSounds :=
       GetSoundByName (C_FrenchNarrationSoundNames r) NarrativeSounds;
     m_ShouldStopCamera := ShouldStopCamera r;
     m_HasLearnMoreOption := HasLearnMoreOption r;
     m_HasQuiz := HasQuiz r;
     m_NumOfLearnMoreOptions := NumOfLearnMoreOption r |}.

Fixpoint LoadCheckpointsData_loop (NarrativeSounds CPActors : list Ptr)
    (Data : list FCheckpointRecord) (gameData : FCheckpointsGameData)
    : Exec FCheckpointsGameData :=
  match Data with
  | [] => mret gameData
  | r :: rest =>
      '(actor, success, message) ← lift (GetActorByName (CheckpointName r) CPActors);
      let narrationKeys := NarrationKeysOf NarrativeSounds r in
      let gameData' :=
        {| ActorsToFollow := ActorsToFollow gameData ++ [actor];
           ActorFrameMap := <[actor := CheckpointFrameNumber r]> (ActorFrameMap gameData);
           ActorKeyMap := <[actor := narrationKeys]> (ActorKeyMap gameData) |} in
      _ ← (if negb success then AddOnScreenDebugMessage message else mret tt);
      LoadCheckpointsData_loop NarrativeSounds CPActors rest gameData'
  end.

Definition LoadCheckpointsData (World : Ptr) (path : FString)
    (NarrativeSounds CPActors : list Ptr) : Exec FCheckpointsGameData :=
  DataStructure ← CheckpointsStatic path;
  LoadCheckpointsData_loop NarrativeSounds CPActors (C_Data DataStructure)
    {| ActorsToFollow := []; ActorFrameMap := ∅; ActorKeyMap := ∅ |}.

(** The narration of one learn-more record that passed the test. *)
Definition LearnMoreNarrationOf (NarrativeSounds Images : list Ptr)
    (data : FLearnMoreRecord) : FLearnMoreNarration :=
  {| m_FrenchNarrationSounds :=
       GetSoundByName (L_FrenchNarrationSoundNames data) NarrativeSounds;
     m_EnglishNarrationSounds :=
       GetSoundByName (L_EnglishNarrationSoundNames data) NarrativeSounds;
     m_Images := GetImageByName (ImagesNames data) Images;
     CorrespondingCPIndex := L_CorrespondingCPIndex data;
     m_TitleKey := L_TitleCaptionKey data;
     m_Keys := L_CaptionKeys data;
     m_SourceName := match ImagesSources data with
                     | [] => m_SourceName FLearnMoreNarration_default
                     | source :: _ => source
                     end |}.

Fixpoint PopulateLearnMoreUI_loop (CurrentActorIndex : Z)
    (NarrativeSounds Images : list Ptr) (Data : list FLearnMoreRecord)
    (learnMoreGameData : FLearnMoreGameData) : FLearnMoreGameData :=
  match Data with
  | [] => learnMoreGameData
  | data :: rest =>
      if L_CorrespondingCPIndex data =? CurrentActorIndex
      then PopulateLearnMoreUI_loop CurrentActorIndex NarrativeSounds Images rest
             {| LearnMoreData := LearnMoreData learnMoreGameData ++
                                 [LearnMoreNarrationOf NarrativeSounds Images data] |}
      else PopulateLearnMoreUI_loop CurrentActorIndex NarrativeSounds Images rest
             learnMoreGameData
  end.

Definition PopulateLearnMoreUI (JSONpath : FString) (CurrentActorIndex : Z)
    (NarrativeSounds Images : list Ptr) : Exec FLearnMoreGameData :=
  let '(dataStructure, success, message) := ReadLearnMoreData E JSONpath in
  mret (PopulateLearnMoreUI_loop CurrentActorIndex NarrativeSounds Images
          (L_Data dataStructure) {| LearnMoreData := [] |}).

(** *** Quiz *)

Definition LoadQuizQuestions : Exec FQuizQuestions :=
  let FilePath := ProjectContentDir E +:+ "/JSONFiles/AutomatedTour/quiz.json" in
  let '(quizData, success, message) := ReadQuizQuestions E FilePath in
  _ ← (if negb success then AddOnScreenDebugMessage message else mret tt);
  mret quizData.

(** The loop of [PopulateQuizUI], with [remaining] iterations to go from
    position [i].  [narration] is the one object declared before the loop;
    [options] is the local array, [Options] the one inside [QuizQuestions].
    The four reads are [options[i].OptionName], [options[i].OptionDescription]
    and the two sound names of [Options[i]]. *)
Fixpoint PopulateQuizUI_loop (NarrativeSounds : list Ptr)
    (options Options : TArray FQuizQuestionOption) (remaining : nat) (i : Z)
    (narration : FLearnMoreNarration) (narrationMap : gmap Z FLearnMoreNarration)
    : Outcome (gmap Z FLearnMoreNarration) :=
  match remaining with
  | O => Returns narrationMap
  | S remaining' =>
      o1 ← At (Elements options) i;
      o2 ← At (Elements options) i;
      o3 ← At (Elements Options) i;
      o4 ← At (Elements Options) i;
      let narration' :=
        {| m_FrenchNarrationSounds :=
             GetSoundByName [FrenchNarrationSound o4] NarrativeSounds;
           m_EnglishNarrationSounds :=
             GetSoundByName [EnglishNarrationSound o3] NarrativeSounds;
           m_Images := m_Images narration;
           CorrespondingCPIndex := CorrespondingCPIndex narration;
           m_TitleKey := OptionName o1;
           m_Keys := m_Keys narration ++ [OptionDescription o2];
           m_SourceName := m_SourceName narration |} in
      PopulateQuizUI_loop NarrativeSounds options Options remaining' (i + 1)
        narration' (<[i := narration']> narrationMap)
  end.

(** The local [options] is copy-constructed from the question's array.
    The loop runs [options.Max()] times. *)
Definition PopulateQuizUI (NarrativeSounds : list Ptr) (QuizQuestions : FQuizQuestions)
    (CurrentQuestionIndex : Z) : Exec FTilesGameData :=
  question ← lift (At (m_Questions QuizQuestions) CurrentQuestionIndex);
  let Options := Options (QuestionOptions question) in
  let options := TArray_copy Options in
  narrationMap ← lift (PopulateQuizUI_loop NarrativeSounds options Options
                         (Z.to_nat (Max options)) 0 FLearnMoreNarration_default ∅);
  mret {| LearnMoreKeyMap := narrationMap |}.

End UGameData.


(** ** Reference definitions used to state the properties *)

(** The test of the inner loops of [GetSoundByName] and [GetImageByName]
    before the [Contains] check: a live object whose name the engine holds
    equal to the requested one. *)
Definition Matches (E : Env) (name : FString) (p : Ptr) : bool :=
  match p with
  | Some a => FString_eqb (GetName E a) name
  | None => false
  end.

(** Appending the elements of [l] to [acc] in order, each once. *)
Fixpoint AppendDistinct (acc l : list Ptr) : list Ptr :=
  match l with
  | [] => acc
  | p :: l' =>
      if bool_decide (p ∈ acc) then AppendDistinct acc l'
      else AppendDistinct (acc ++ [p]) l'
  end.

(** The first pool entry a name matches. *)
Definition FirstMatch (E : Env) (name : FString) (pool : list Ptr) : option Ptr :=
  head (filter (λ p, Matches E name p) pool).

(** The actor [GetActorByName] settles on for a record ([nullptr] when
    the call does not complete). *)
Definition ResolvedActor (E : Env) (CPActors : list Ptr) (r : FCheckpointRecord) : Ptr :=
  match GetActorByName E (CheckpointName r) CPActors with
  | Returns (actor, _, _) => actor
  | ArrayIndexOutOfBounds _ _ => None
  end.


(** Every live candidate carries at least one tag, so that [Tags[0]] is
    in range. *)
Definition AllTagged (E : Env) (CPActors : list Ptr) : Prop :=
  ∀ a, Some a ∈ CPActors → Tags E a ≠ [].

(** The structure the loop of [LoadCheckpointsData] iterates over: the one
    the [static] retains, or, when its initialiser has yet to run, the one
    decoded from the file at [path]. *)
Definition IteratedStructure (E : Env) (path : FString) (st : ProgramState)
    : FCheckpointsData :=
  match DataStructure st with
  | Some d => d
  | None => (ReadCheckpointsData E path).1.1
  end.

(** The state once a message has been handed to the screen. *)
Definition Shown (E : Env) (message : FString) (st : ProgramState) : ProgramState :=
  if GEngine E
  then {| DataStructure := DataStructure st;
          OnScreenDebugMessages :=
            OnScreenDebugMessages st ++
            [{| Key := -1; TimeToDisplay := 60; DisplayColor := Green;
                DebugText := message |}] |}
  else st.

(** One iteration of the loop of [LoadCheckpointsData] on the accumulated
    result, given the actor the record resolved to. *)
Definition AddCheckpoint (E : Env) (NarrativeSounds CPActors : list Ptr)
    (gameData : FCheckpointsGameData) (r : FCheckpointRecord) : FCheckpointsGameData :=
  let actor := ResolvedActor E CPActors r in
  {| ActorsToFollow := ActorsToFollow gameData ++ [actor];
     ActorFrameMap := <[actor := CheckpointFrameNumber r]> (ActorFrameMap gameData);
     ActorKeyMap := <[actor := NarrationKeysOf E NarrativeSounds r]> (ActorKeyMap gameData) |}.

(** A map after one [TMap::Add] per record, in order. *)
Definition AddAll {R K V : Type} `{Countable K} (key : R → K) (val : R → V)
    (records : list R) (m : gmap K V) : gmap K V :=
  fold_left (λ m r, <[key r := val r]> m) records m.

Definition NoCheckpoints : FCheckpointsGameData :=
  {| ActorsToFollow := []; ActorFrameMap := ∅; ActorKeyMap := ∅ |}.

(** What [PopulateQuizUI] stores under position [k] for the option [o]
    found there: the captions are the descriptions of the options up to and
    including [k], since the one [narration] object is reused from one
    iteration to the next. *)
Definition QuizNarration (E : Env) (NarrativeSounds : list Ptr)
    (options : list FQuizQuestionOption) (k : nat) (o : FQuizQuestionOption)
    : FLearnMoreNarration :=
  {| m_FrenchNarrationSounds := GetSoundByName E [FrenchNarrationSound o] NarrativeSounds;
     m_EnglishNarrationSounds := GetSoundByName E [EnglishNarrationSound o] NarrativeSounds;
     m_Images := [];
     CorrespondingCPIndex := 0;
     m_TitleKey := OptionName o;
     m_Keys := OptionDescription <$> take (S k) options;
     m_SourceName := "" |}.

(** ** A small tour, for concrete evaluation *)

Module Demo.

(** Sounds at addresses 1 to 3 (two of them are both named "A"), an
    image at 4, actors at 10 to 12 (the last one without tags). *)
Definition Names (a : Addr) : FString :=
  match a with
  | 1 => "A" | 2 => "A" | 3 => "B" | 4 => "Map"
  | _ => ""
  end%nat.

Definition ActorTags (a : Addr) : list FName :=
  match a with
  | 10 => ["CP_1"] | 11 => ["CP_2"; "Radar"]
  | _ => []
  end%nat.

Definition Sounds : list Ptr := [Some 1; None; Some 2; Some 3]%nat.
Definition Images : list Ptr := [Some 4]%nat.
Definition Actors : list Ptr := [None; Some 10; Some 11]%nat.

Definition Checkpoint (name : FString) (frame : Z) : FCheckpointRecord :=
  {| CheckpointName := name; CheckpointFrameNumber := frame;
     C_TitleCaptionKey := name +:+ "_Title"; C_CaptionKeys := [name +:+ "_Caption"];
     C_EnglishNarrationSoundNames := ["A"]; C_FrenchNarrationSoundNames := ["B"];
     ShouldStopCamera := true; HasLearnMoreOption := false; HasQuiz := false;
     NumOfLearnMoreOption := 0 |}.

Definition TourA : FCheckpointsData := {| C_Data := [Checkpoint "CP_1" 120] |}.
Definition TourB : FCheckpointsData :=
  {| C_Data := [Checkpoint "CP_2" 30; Checkpoint "Ghost" 60; Checkpoint "Phantom" 90] |}.

Definition Panel (index : Z) (title : FString) : FLearnMoreRecord :=
  {| L_CorrespondingCPIndex := index; L_TitleCaptionKey := title;
     L_CaptionKeys := [title +:+ "_Caption"];
     L_EnglishNarrationSoundNames := ["A"]; L_FrenchNarrationSoundNames := ["B"];
     ImagesNames := ["Map"]; ImagesSources := ["Archives"; "Museum"] |}.

Definition Panels : FLearnMoreData :=
  {| L_Data := [Panel 0 "P0"; Panel 1 "P1"; Panel 1 "P2"; Panel 2 "P3"] |}.

Definition Option_ (name description english french : FString) : FQuizQuestionOption :=
  {| OptionName := name; OptionDescription := description;
     EnglishNarrationSound := english; FrenchNarrationSound := french |}.

Definition TwoOptions : list FQuizQuestionOption :=
  [Option_ "Radar" "It detects aircraft" "A" "B";
   Option_ "Radio" "It carries voices" "B" "A"].

(** One question with two options and no slack in its array. *)
Definition Quiz : FQuizQuestions :=
  {| m_Questions := [{| QuestionOptions := {| Options := MkTArray TwoOptions 0 |} |}] |}.


Definition Instruction (kind : FString) : FInstructionRecord :=
  {| InstructionType := kind; I_TitleCaptionKey := kind +:+ "_Title";
     I_CaptionKeys := [kind +:+ "_Caption"];
     I_EnglishNarrationSoundNames := ["A"]; I_FrenchNarrationSoundNames := ["B"] |}.

Definition Failure : FString := "Read Struct Json Failed - File does not exist".

(** The tour's files; any other path fails to decode and gives the
    default-valued structure. *)
Definition Environment : Env :=
  {| GEngine := true;
     GetName := Names;
     Tags := ActorTags;
     ProjectContentDir := "/Game/Content";
     ReadInstructionsData := λ path,
       if String.eqb path "instructions.json"
       then ({| I_Data := [Instruction "QuizProposed"; Instruction "HowToSelection"] |},
             true, "ok")
       else ({| I_Data := [] |}, false, Failure);
     ReadCheckpointsData := λ path,
       if String.eqb path "a.json" then (TourA, true, "ok")
       else if String.eqb path "b.json" then (TourB, true, "ok")
       else ({| C_Data := [] |}, false, Failure);
     ReadLearnMoreData := λ path,
       if String.eqb path "learnmore.json" then (Panels, true, "ok")
       else ({| L_Data := [] |}, false, Failure);
     ReadQuizQuestions := λ path, ({| m_Questions := [] |}, false, Failure) |}.

(** The state a first call [LoadCheckpointsData(World, "a.json", ...)]
    leaves behind. *)
Definition AfterTourA : ProgramState :=
  {| DataStructure := Some TourA; OnScreenDebugMessages := [] |}.

End Demo.


(** ** Further reference definitions *)

(** The record [AddOnScreenDebugMessage(-1, 60.0f, FColor::Green, message)]
    puts on screen. *)
Definition DebugMessageOf (message : FString) : DebugMessage :=
  {| Key := -1; TimeToDisplay := 60; DisplayColor := Green; DebugText := message |}.

(** The state after the same message was handed to the screen [n] times. *)
Definition ShownTimes (E : Env) (n : nat) (message : FString) (st : ProgramState)
    : ProgramState :=
  {| DataStructure := DataStructure st;
     OnScreenDebugMessages :=
       OnScreenDebugMessages st ++
       replicate (if GEngine E then n else 0%nat) (DebugMessageOf message) |}.

(** The key and the value of the [InstructionKeyMap.Add] of one record. *)
Definition InstructionKindOf (r : FInstructionRecord) : Instructions :=
  StringToInstructions (InstructionType r).

(** The name of each enumerator as the code spells it. *)
Definition EnumeratorName (kind : Instructions) : FString :=
  match kind with
  | LearnMoreProposed => "LearnMoreProposed"
  | LearnMoreCompleted => "LearnMoreCompleted"
  | HowToSelection => "HowToSelection"
  | QuizProposed => "QuizProposed"
  | LearnMoreNavigation => "LearnMoreNavigation"
  | MiniGameQuiz_Context => "MiniGameQuiz_Context"
  | MiniGameQuiz_QuestionInstruction => "MiniGameQuiz_QuestionInstruction"
  | Inactivty_Instruction => "Inactivty_Instruction"
  end.

(** A pool entry that is not [nullptr]. *)
Definition IsLive (p : Ptr) : Prop := p ≠ None.

(** The records of a list that [GetActorByName] leaves unresolved. *)
Definition UnresolvedRecords (E : Env) (CPActors : list Ptr)
    (records : list FCheckpointRecord) : list FCheckpointRecord :=
  filter (λ r, ResolvedActor E CPActors r = None) records.

(** A candidate that does not stop the scan of [GetActorByName]: a null
    entry, or a live actor whose first tag is another name. *)
Definition PassedOver (E : Env) (ActorName : FString) (cp : Ptr) : Prop :=
  match cp with
  | None => True
  | Some b => ∃ tag, head (Tags E b) = Some tag ∧
                     FName_eqb tag (MakeFName ActorName) = false
  end.

(** ** Widgets: what [LoadLearnMoreProgressBar] builds

    The widgets are engine objects; they are kept here by the properties
    the function sets.  The one percentage the code stores is [0.0f], the
    rational 0. *)

Inductive ESlateSizeRule := Automatic | Fill.
Inductive EHorizontalAlignment := HAlign_Fill | HAlign_Left | HAlign_Center | HAlign_Right.
Inductive EVerticalAlignment := VAlign_Fill | VAlign_Top | VAlign_Center | VAlign_Bottom.
Inductive EProgressBarFillType :=
  LeftToRight | RightToLeft | FillFromCenter | TopToBottom | BottomToTop.
Inductive EProgressBarFillStyle := Mask | Scale.

(** An [FProgressBarStyle], by the name of the style. *)
Definition FProgressBarStyle := FString.

Record UProgressBar := {
  Percent : Q;
  BarFillType : EProgressBarFillType;
  BarFillStyle : EProgressBarFillStyle;
  WidgetStyle : FProgressBarStyle
}.

Record UHorizontalBoxSlot := {
  Content : Ptr;
  Size : ESlateSizeRule;
  HorizontalAlignment : EHorizontalAlignment;
  VerticalAlignment : EVerticalAlignment
}.

(** A slot is addressed by its box and its position among the box's slots. *)
Definition SlotPtr := option (Addr * nat).

(** The widgets alive: the address [NewObject] hands out next, the
    progress bars by address, and the slots of each horizontal box in the
    order they were added. *)
Record WidgetTree := {
  NextObject : Addr;
  ProgressBars : gmap Addr UProgressBar;
  Slots : gmap Addr (list UHorizontalBoxSlot)
}.

(** What a freshly constructed progress bar and slot look like before any
    setter is called (the class defaults). *)
Record WidgetDefaults := {
  DefaultProgressBar : UProgressBar;
  DefaultSlot : UHorizontalBoxSlot
}.

Inductive Construction (A : Type) : Type :=
  | Constructed (a : A)
  | NullDereference.
Arguments Constructed {A} a.
Arguments NullDereference {A}.

Definition UI (A : Type) : Type := WidgetTree → Construction (A * WidgetTree).

#[global] Instance UI_ret : MRet UI := fun A a tree => Constructed (a, tree).
#[global] Instance UI_bind : MBind UI := fun A B f m tree =>
  match m tree with
  | Constructed (a, tree') => f a tree'
  | NullDereference => NullDereference
  end.

Definition SlotsOf (tree : WidgetTree) (box : Addr) : list UHorizontalBoxSlot :=
  default [] (Slots tree !! box).

(** [NewObject<UProgressBar>()]: a new object, with the class defaults, at
    a fresh address; it does not return null, so the [if] around the loop
    body always takes its branch. *)
Definition NewObject_UProgressBar (D : WidgetDefaults) : UI Ptr := fun tree =>
  Constructed (Some (NextObject tree),
               {| NextObject := S (NextObject tree);
                  ProgressBars := <[NextObject tree := DefaultProgressBar D]>
                                    (ProgressBars tree);
                  Slots := Slots tree |}).

(** [Cast<UHorizontalBoxSlot>(progressBarsBox->AddChild(Content))]: a new
    slot for the content at the end of the box's slots; no slot for a null
    content. *)
Definition AddChild (D : WidgetDefaults) (progressBarsBox Content : Ptr) : UI SlotPtr :=
  fun tree =>
  match progressBarsBox with
  | None => NullDereference
  | Some box =>
      match Content with
      | None => Constructed (None, tree)
      | Some _ =>
          Constructed
            (Some (box, length (SlotsOf tree box)),
             {| NextObject := NextObject tree;
                ProgressBars := ProgressBars tree;
                Slots := <[box := SlotsOf tree box ++
                                   [{| Content := Content;
                                       Size := Size (DefaultSlot D);
                                       HorizontalAlignment :=
                                         HorizontalAlignment (DefaultSlot D);
                                       VerticalAlignment :=
                                         VerticalAlignment (DefaultSlot D) |}]]>
                           (Slots tree) |})
      end
  end.

(** A setter called through a slot pointer. *)
Definition OnSlot (set : UHorizontalBoxSlot → UHorizontalBoxSlot) (horizontalSlot : SlotPtr)
    : UI unit := fun tree =>
  match horizontalSlot with
  | None => NullDereference
  | Some (box, position) =>
      Constructed (tt, {| NextObject := NextObject tree;
                          ProgressBars := ProgressBars tree;
                          Slots := <[box := alter set position (SlotsOf tree box)]>
                                     (Slots tree) |})
  end.

(** A setter called through a progress bar pointer. *)
Definition OnProgressBar (set : UProgressBar → UProgressBar) (progressBar : Ptr)
    : UI unit := fun tree =>
  match progressBar with
  | None => NullDereference
  | Some bar =>
      Constructed (tt, {| NextObject := NextObject tree;
                          ProgressBars := alter set bar (ProgressBars tree);
                          Slots := Slots tree |})
  end.

Definition SetSize (InSize : ESlateSizeRule) : SlotPtr → UI unit :=
  OnSlot (λ s, {| Content := Content s; Size := InSize;
                  HorizontalAlignment := HorizontalAlignment s;
                  VerticalAlignment := VerticalAlignment s |}).
Definition SetHorizontalAlignment (InAlignment : EHorizontalAlignment) : SlotPtr → UI unit :=
  OnSlot (λ s, {| Content := Content s; Size := Size s;
                  HorizontalAlignment := InAlignment;
                  VerticalAlignment := VerticalAlignment s |}).
Definition SetVerticalAlignment (InAlignment : EVerticalAlignment) : SlotPtr → UI unit :=
  OnSlot (λ s, {| Content := Content s; Size := Size s;
                  HorizontalAlignment := HorizontalAlignment s;
                  VerticalAlignment := InAlignment |}).

Definition SetPercent (InPercent : Q) : Ptr → UI unit :=
  OnProgressBar (λ b, {| Percent := InPercent; BarFillType := BarFillType b;
                         BarFillStyle := BarFillStyle b; WidgetStyle := WidgetStyle b |}).
Definition SetBarFillType (InBarFillType : EProgressBarFillType) : Ptr → UI unit :=
  OnProgressBar (λ b, {| Percent := Percent b; BarFillType := InBarFillType;
                         BarFillStyle := BarFillStyle b; WidgetStyle := WidgetStyle b |}).
Definition SetBarFillStyle (InBarFillStyle : EProgressBarFillStyle) : Ptr → UI unit :=
  OnProgressBar (λ b, {| Percent := Percent b; BarFillType := BarFillType b;
                         BarFillStyle := InBarFillStyle; WidgetStyle := WidgetStyle b |}).
Definition SetWidgetStyle (InStyle : FProgressBarStyle) : Ptr → UI unit :=
  OnProgressBar (λ b, {| Percent := Percent b; BarFillType := BarFillType b;
                         BarFillStyle := BarFillStyle b; WidgetStyle := InStyle |}).

(** The value of an [int] once converted to [size_t] (64 bits), as the
    loop test [i < numberOfLearnMoreOptions] compares it. *)
Definition size_t_of_int (n : Z) : Z := n mod 2 ^ 64.

(** The loop of [LoadLearnMoreProgressBar], with [iterations] turns to go;
    the [match] is the [if (UProgressBar* progressBar = ...)]. *)
Fixpoint LoadLearnMoreProgressBar_loop (D : WidgetDefaults) (progressBarsBox : Ptr)
    (progressBarStyle : FProgressBarStyle) (iterations : nat)
    (learnMoreProgressBars : list Ptr) : UI (list Ptr) :=
  match iterations with
  | O => mret learnMoreProgressBars
  | S iterations' =>
      progressBar ← NewObject_UProgressBar D;
      match progressBar with
      | Some _ =>
          horizontalSlot ← AddChild D progressBarsBox progressBar;
          _ ← SetSize Fill horizontalSlot;
          _ ← SetHorizontalAlignment HAlign_Fill horizontalSlot;
          _ ← SetVerticalAlignment VAlign_Fill horizontalSlot;
          _ ← SetPercent 0%Q progressBar;
          _ ← SetBarFillType LeftToRight progressBar;
          _ ← SetBarFillStyle Mask progressBar;
          _ ← SetWidgetStyle progressBarStyle progressBar;
          LoadLearnMoreProgressBar_loop D progressBarsBox progressBarStyle iterations'
            (learnMoreProgressBars ++ [progressBar])
      | None =>
          LoadLearnMoreProgressBar_loop D progressBarsBox progressBarStyle iterations'
            learnMoreProgressBars
      end
  end.

Definition LoadLearnMoreProgressBar (D : WidgetDefaults) (progressBarsBox : Ptr)
    (progressBarStyle : FProgressBarStyle) (numberOfLearnMoreOptions : Z)
    : UI (list Ptr) :=
  LoadLearnMoreProgressBar_loop D progressBarsBox progressBarStyle
    (Z.to_nat (size_t_of_int numberOfLearnMoreOptions)) [].

(** A progress bar as the loop leaves it, and the slot that holds it. *)
Definition StyledBar (progressBarStyle : FProgressBarStyle) : UProgressBar :=
  {| Percent := 0%Q; BarFillType := LeftToRight; BarFillStyle := Mask;
     WidgetStyle := progressBarStyle |}.

Definition FilledSlot (progressBar : Ptr) : UHorizontalBoxSlot :=
  {| Content := progressBar; Size := Fill; HorizontalAlignment := HAlign_Fill;
     VerticalAlignment := VAlign_Fill |}.

(** The tree after [n] turns of the loop on the box at address [box]. *)
Definition WithProgressBars (box : Addr) (progressBarStyle : FProgressBarStyle)
    (n : nat) (tree : WidgetTree) : WidgetTree :=
  {| NextObject := (NextObject tree + n)%nat;
     ProgressBars :=
       fold_left (λ bars a, <[a := StyledBar progressBarStyle]> bars)
                 (seq (NextObject tree) n) (ProgressBars tree);
     Slots := match n with
              | O => Slots tree
              | S _ => <[box := SlotsOf tree box ++
                                 ((λ a, FilledSlot (Some a)) <$> seq (NextObject tree) n)]>
                         (Slots tree)
              end |}.

(** ** More of the small tour, for concrete evaluation *)

Module Demo2.

(** An instruction file in which the second record misspells its type. *)
Definition Misspelt : list FInstructionRecord :=
  [Demo.Instruction "LearnMoreProposed"; Demo.Instruction "LernMoreProposed"].

Definition Environment : Env :=
  {| GEngine := true;
     GetName := Demo.Names;
     Tags := Demo.ActorTags;
     ProjectContentDir := "/Game/Content";
     ReadInstructionsData := λ path, ({| I_Data := Misspelt |}, false, Demo.Failure);
     ReadCheckpointsData := λ path, (Demo.TourB, true, "ok");
     ReadLearnMoreData := λ path, (Demo.Panels, true, "ok");
     ReadQuizQuestions := λ path, (Demo.Quiz, true, "ok") |}.

(** The actors of the tour and one more, at address 30, whose first tag is
    the name None. *)
Definition NamelessTags (a : Addr) : list FName :=
  match a with
  | 30%nat => ["None"]
  | _ => Demo.ActorTags a
  end.

Definition Nameless : Env :=
  {| GEngine := true;
     GetName := Demo.Names;
     Tags := NamelessTags;
     ProjectContentDir := "/Game/Content";
     ReadInstructionsData := λ path, ({| I_Data := [] |}, false, Demo.Failure);
     ReadCheckpointsData := λ path, (Demo.TourB, true, "ok");
     ReadLearnMoreData := λ path, (Demo.Panels, true, "ok");
     ReadQuizQuestions := λ path, (Demo.Quiz, true, "ok") |}.

(** Class defaults that differ from what the loop sets. *)
Definition Defaults : WidgetDefaults :=
  {| DefaultProgressBar :=
       {| Percent := 1%Q; BarFillType := RightToLeft; BarFillStyle := Scale;
          WidgetStyle := "Default" |};
     DefaultSlot :=
       {| Content := None; Size := Automatic; HorizontalAlignment := HAlign_Left;
          VerticalAlignment := VAlign_Top |} |}.

(** A tree with one box, at address 7, that already holds a slot. *)
Definition Tree : WidgetTree :=
  {| NextObject := 20%nat;
     ProgressBars := ∅;
     Slots := {[ 7%nat := [{| Content := Some 3%nat; Size := Automatic;
                              HorizontalAlignment := HAlign_Center;
                              VerticalAlignment := VAlign_Center |}] ]} |}.

End Demo2.
(** ** Engine strings: [FString_eqb] is equality of the case-folded text *)

Lemma FString_eqb_CaseFold (a b : FString) :
  FString_eqb a b = true ↔ CaseFold a = CaseFold b.
Proof.
  revert b. induction a as [|c a IH]; intros [|d b]; simpl; try (split; congruence).
  rewrite andb_true_iff, IH. split.
  - intros [Hc ->]. apply Ascii.eqb_eq in Hc. by rewrite Hc.
  - intros H. injection H as Hc Hs. split; [by apply Ascii.eqb_eq | done].
Qed.

Lemma FString_eqb_refl (a : FString) : FString_eqb a a = true.
Proof. by apply FString_eqb_CaseFold. Qed.

Lemma FString_eqb_sym (a b : FString) : FString_eqb a b = FString_eqb b a.
Proof.
  destruct (FString_eqb a b) eqn:Hab, (FString_eqb b a) eqn:Hba; try done.
  - apply FString_eqb_CaseFold in Hab. symmetry in Hab.
    apply FString_eqb_CaseFold in Hab. congruence.
  - apply FString_eqb_CaseFold in Hba. symmetry in Hba.
    apply FString_eqb_CaseFold in Hba. congruence.
Qed.

(** Two strings the engine holds equal compare alike with any third. *)
Lemma FString_eqb_congr (a b c : FString) :
  FString_eqb a b = true → FString_eqb a c = FString_eqb b c.
Proof.
  intros Hab%FString_eqb_CaseFold.
  destruct (FString_eqb a c) eqn:Hac, (FString_eqb b c) eqn:Hbc; try done.
  - apply FString_eqb_CaseFold in Hac.
    rewrite Hab in Hac. apply FString_eqb_CaseFold in Hac. congruence.
  - apply FString_eqb_CaseFold in Hbc.
    rewrite <- Hab in Hbc. apply FString_eqb_CaseFold in Hbc. congruence.
Qed.

Lemma FString_eqb_false_neq (a b : FString) : FString_eqb a b = false → a ≠ b.
Proof. intros H ->. by rewrite FString_eqb_refl in H. Qed.

(** ** [StringToInstructions] *)

(** Each recognized string reaches its own branch. *)
Lemma StringToInstructions_recognized (s : FString) (k : Instructions) :
  (s, k) ∈ RecognizedInstructions → StringToInstructions s = k.
Proof.
  unfold RecognizedInstructions. intros H.
  repeat (apply elem_of_cons in H as [H|H]; [by injection H as -> ->|]).
  by apply elem_of_nil in H.
Qed.

(** A string no test accepts falls through to the last [return]. *)
Lemma StringToInstructions_fallthrough (s : FString) :
  (∀ r k, (r, k) ∈ RecognizedInstructions → FString_eqb s r = false) →
  StringToInstructions s = LearnMoreProposed.
Proof.
  intros H. unfold StringToInstructions.
  repeat match goal with
  | |- context [FString_eqb s ?r] =>
      rewrite (H r (StringToInstructions r)) by
        (unfold RecognizedInstructions; set_solver)
  end.
  done.
Qed.

(** A string the engine holds equal to a recognized one takes its branch. *)
Lemma StringToInstructions_fold (s r : FString) (k : Instructions) :
  (r, k) ∈ RecognizedInstructions → FString_eqb s r = true →
  StringToInstructions s = k.
Proof.
  intros Hr Hs. rewrite <- (StringToInstructions_recognized r k Hr).
  unfold StringToInstructions.
  repeat match goal with
  | |- context [FString_eqb s ?x] => rewrite (FString_eqb_congr s r x Hs)
  end.
  done.
Qed.

(** C5, as the specification states it, is refuted: "quizproposed" is none
    of the eight recognized strings, yet it is not sent to the default
    value. *)
Lemma C5_exact_match_refuted :
  ¬ (∀ s : FString,
       (∀ r k, (r, k) ∈ RecognizedInstructions → s ≠ r) →
       StringToInstructions s = LearnMoreProposed).
Proof.
  intros H. specialize (H "quizproposed").
  assert (Hs : StringToInstructions "quizproposed" = QuizProposed) by reflexivity.
  rewrite Hs in H. enough (QuizProposed = LearnMoreProposed) by discriminate.
  apply H. intros r k Hr. unfold RecognizedInstructions in Hr.
  repeat (apply elem_of_cons in Hr as [Hr|Hr]; [by injection Hr as -> ->|]).
  by apply elem_of_nil in Hr.
Qed.

(** C5, amended: [StringToInstructions] sends each of the eight recognized
    strings to its enumeration value; it sends a string that equals a
    recognized one up to the case of ASCII letters to that same value; and
    it sends every string that differs from all eight even up to case to
    one and the same default, [LearnMoreProposed]. *)
Theorem C5_StringToInstructions_up_to_case :
  (∀ r k, (r, k) ∈ RecognizedInstructions → StringToInstructions r = k) ∧
  (∀ s r k, (r, k) ∈ RecognizedInstructions → CaseFold s = CaseFold r →
            StringToInstructions s = k) ∧
  (∀ s, (∀ r k, (r, k) ∈ RecognizedInstructions → CaseFold s ≠ CaseFold r) →
        StringToInstructions s = LearnMoreProposed).
Proof.
  split; [|split].
  - apply StringToInstructions_recognized.
  - intros s r k Hr Hs. apply (StringToInstructions_fold s r k Hr).
    by apply FString_eqb_CaseFold.
  - intros s H. apply StringToInstructions_fallthrough. intros r k Hr.
    destruct (FString_eqb s r) eqn:Hsr; [|done].
    apply FString_eqb_CaseFold in Hsr. by destruct (H r k Hr).
Qed.

Lemma C5_StringToInstructions_up_to_case_witness :
  StringToInstructions "QUIZPROPOSED" = QuizProposed ∧
  StringToInstructions "Quiz Proposed" = LearnMoreProposed.
Proof.
  split.
  - apply (proj1 (proj2 C5_StringToInstructions_up_to_case) "QUIZPROPOSED" "QuizProposed").
    + unfold RecognizedInstructions.
      do 3 (apply elem_of_cons; right). apply elem_of_cons. by left.
    + reflexivity.
  - apply (proj2 (proj2 C5_StringToInstructions_up_to_case) "Quiz Proposed").
    intros r k Hr. unfold RecognizedInstructions in Hr.
    repeat (apply elem_of_cons in Hr as [Hr|Hr];
            [injection Hr as -> ->; vm_compute; discriminate|]).
    by apply elem_of_nil in Hr.
Defined.

(** ** Sound and image resolution *)

Section Resolution.
Context (E : Env).
Implicit Types (pool acc l : list Ptr) (p : Ptr) (n : FString) (names : list FString).

Lemma Contains_elem_of l p : Contains l p = bool_decide (p ∈ l).
Proof. done. Qed.

(** One pass of the inner loop appends, once each, the pool entries the
    name matches. *)
Lemma GetSoundByName_scan_spec n pool acc :
  GetSoundByName_scan E n pool acc =
  AppendDistinct acc (filter (λ p, Matches E n p) pool).
Proof.
  revert acc. induction pool as [|[a|] pool IH]; intros acc; simpl; [done| |].
  - rewrite filter_cons. simpl. unfold Contains.
    destruct (FString_eqb (GetName E a) n) eqn:Hn; simpl.
    + destruct (decide (Some a ∈ acc)) as [Hin|Hin];
        [rewrite !bool_decide_eq_true_2 by done
        |rewrite !bool_decide_eq_false_2 by done]; simpl; apply IH.
    + apply IH.
  - rewrite filter_cons. simpl. apply IH.
Qed.

Lemma GetImageByName_scan_eq n pool acc :
  GetImageByName_scan E n pool acc = GetSoundByName_scan E n pool acc.
Proof.
  revert acc. induction pool as [|[a|] pool IH]; intros acc; simpl; [done| |].
  - by rewrite !IH.
  - apply IH.
Qed.

Lemma GetImageByName_eq names pool :
  GetImageByName E names pool = GetSoundByName E names pool.
Proof.
  unfold GetImageByName, GetSoundByName. generalize (@nil Ptr).
  induction names as [|n names IH]; intros acc; simpl; [done|].
  by rewrite GetImageByName_scan_eq, IH.
Qed.

Lemma AppendDistinct_app acc l1 l2 :
  AppendDistinct acc (l1 ++ l2) = AppendDistinct (AppendDistinct acc l1) l2.
Proof.
  revert acc. induction l1 as [|p l1 IH]; intros acc; simpl; [done|].
  destruct (bool_decide (p ∈ acc)); apply IH.
Qed.

Lemma AppendDistinct_elem_of acc l p :
  p ∈ AppendDistinct acc l ↔ p ∈ acc ∨ p ∈ l.
Proof.
  revert acc. induction l as [|q l IH]; intros acc; simpl.
  - rewrite elem_of_nil. tauto.
  - destruct (bool_decide_reflect (q ∈ acc)) as [Hq|Hq];
      rewrite IH, ?elem_of_app, ?list_elem_of_singleton, elem_of_cons;
      intuition (subst; auto).
Qed.

Lemma elem_of_concat_lists (ls : list (list Ptr)) p :
  p ∈ concat ls ↔ ∃ l, l ∈ ls ∧ p ∈ l.
Proof.
  induction ls as [|l ls IH]; simpl.
  - rewrite elem_of_nil. split; [done|]. intros (l & Hl & _).
    by apply elem_of_nil in Hl.
  - rewrite elem_of_app, IH. split.
    + intros [Hp|(l' & Hl' & Hp)].
      * exists l. split; [apply elem_of_cons; by left|done].
      * exists l'. split; [apply elem_of_cons; by right|done].
    + intros (l' & [->|Hl']%elem_of_cons & Hp); [by left|].
      right. by exists l'.
Qed.

Lemma AppendDistinct_NoDup acc l : NoDup acc → NoDup (AppendDistinct acc l).
Proof.
  revert acc. induction l as [|q l IH]; intros acc Hacc; simpl; [done|].
  destruct (bool_decide_reflect (q ∈ acc)) as [Hq|Hq]; apply IH; [done|].
  apply NoDup_app. split; [done|]. split; [|apply NoDup_singleton].
  intros x Hx Hx'. apply list_elem_of_singleton in Hx'. by subst.
Qed.

(** Entries that are all there already change nothing. *)
Lemma AppendDistinct_absorb acc l :
  (∀ p, p ∈ l → p ∈ acc) → AppendDistinct acc l = acc.
Proof.
  induction l as [|q l IH]; intros H; simpl; [done|].
  rewrite bool_decide_eq_true_2 by (apply H, elem_of_cons; by left).
  apply IH. intros p Hp. apply H, elem_of_cons. by right.
Qed.

(** The outer loop, from any content of [sounds]. *)
Lemma GetSoundByName_fold_spec names pool acc :
  fold_left (λ sounds soundName, GetSoundByName_scan E soundName pool sounds) names acc =
  AppendDistinct acc (concat ((λ n, filter (λ p, Matches E n p) pool) <$> names)).
Proof.
  revert acc. induction names as [|n names IH]; intros acc; simpl; [done|].
  by rewrite IH, GetSoundByName_scan_spec, AppendDistinct_app.
Qed.

Lemma GetSoundByName_spec names pool :
  GetSoundByName E names pool =
  AppendDistinct [] (concat ((λ n, filter (λ p, Matches E n p) pool) <$> names)).
Proof. apply GetSoundByName_fold_spec. Qed.

Lemma GetSoundByName_NoDup names pool : NoDup (GetSoundByName E names pool).
Proof. rewrite GetSoundByName_spec. apply AppendDistinct_NoDup, NoDup_nil_2. Qed.

Lemma GetSoundByName_elem_of names pool p :
  p ∈ GetSoundByName E names pool ↔
  p ∈ pool ∧ ∃ n, n ∈ names ∧ Matches E n p = true.
Proof.
  rewrite GetSoundByName_spec, AppendDistinct_elem_of, elem_of_nil.
  rewrite elem_of_concat_lists. split.
  - intros [[]|(l & Hl & Hp)]. apply list_elem_of_fmap in Hl as (n & -> & Hn).
    apply list_elem_of_filter in Hp as [Hm Hp]. split; [done|].
    exists n. split; [done|]. by apply Is_true_true.
  - intros (Hp & n & Hn & Hm). right.
    exists (filter (λ p, Matches E n p) pool). split.
    + apply list_elem_of_fmap. by exists n.
    + apply list_elem_of_filter. split; [by apply Is_true_true|done].
Qed.

Lemma Matches_congr n n' p :
  FString_eqb n' n = true → Matches E n p = Matches E n' p.
Proof.
  intros H. destruct p as [a|]; simpl; [|done].
  rewrite (FString_eqb_sym _ n), (FString_eqb_sym _ n').
  symmetry. by apply FString_eqb_congr.
Qed.

(** Dropping a requested name changes nothing when the entries it matches
    were all collected by the names before it. *)
Lemma GetSoundByName_drop names1 n names2 pool :
  (∀ p, p ∈ pool → Matches E n p = true → p ∈ GetSoundByName E names1 pool) →
  GetSoundByName E (names1 ++ n :: names2) pool =
  GetSoundByName E (names1 ++ names2) pool.
Proof.
  intros H. unfold GetSoundByName in *. rewrite !fold_left_app. simpl.
  f_equal. rewrite GetSoundByName_scan_spec. apply AppendDistinct_absorb.
  intros p [Hm Hp]%list_elem_of_filter. apply H; [done|]. by apply Is_true_true.
Qed.

Lemma GetSoundByName_duplicate names1 n' n names2 pool :
  n' ∈ names1 → FString_eqb n' n = true →
  GetSoundByName E (names1 ++ n :: names2) pool =
  GetSoundByName E (names1 ++ names2) pool.
Proof.
  intros Hn' Heq. apply GetSoundByName_drop. intros p Hp Hm.
  apply GetSoundByName_elem_of. split; [done|]. exists n'. split; [done|].
  by rewrite <- (Matches_congr n n' p Heq).
Qed.

Lemma GetSoundByName_no_match names1 n names2 pool :
  (∀ p, p ∈ pool → Matches E n p = false) →
  GetSoundByName E (names1 ++ n :: names2) pool =
  GetSoundByName E (names1 ++ names2) pool.
Proof.
  intros H. apply GetSoundByName_drop. intros p Hp Hm.
  rewrite (H p Hp) in Hm. discriminate.
Qed.

End Resolution.

(** C6, as the specification states it, is refuted: in a pool with two
    sounds named "A", the name "A" contributes both of them, not only the
    first in pool order. *)
Lemma C6_only_first_match_refuted :
  FirstMatch Demo.Environment "A" Demo.Sounds = Some (Some 1%nat) ∧
  GetSoundByName Demo.Environment ["A"] Demo.Sounds = [Some 1%nat; Some 2%nat] ∧
  GetSoundByName Demo.Environment ["A"] Demo.Sounds ≠ [Some 1%nat] ∧
  GetImageByName Demo.Environment ["A"] Demo.Sounds ≠ [Some 1%nat].
Proof. repeat split; try reflexivity; discriminate. Qed.

(** C6, amended: for every pool, [GetImageByName] resolves as
    [GetSoundByName] does, and [GetSoundByName] (1) never returns the same
    asset twice; (2) ignores a requested name that repeats, up to the case
    of ASCII letters, an earlier one, so that ["A";"A";"B"] resolves as
    ["A";"B"]; (3) ignores a name that no pool entry matches; and (4)
    returns, for the names in request order, every live pool entry the name
    matches, in pool order, each asset once at its first occurrence: a
    name with several pool matches contributes all of them. *)
Theorem C6_resolution_deduplicates (E : Env) (pool : list Ptr) :
  (∀ names, GetImageByName E names pool = GetSoundByName E names pool) ∧
  (∀ names, NoDup (GetSoundByName E names pool)) ∧
  (∀ names1 n' n names2, n' ∈ names1 → CaseFold n' = CaseFold n →
     GetSoundByName E (names1 ++ n :: names2) pool =
     GetSoundByName E (names1 ++ names2) pool) ∧
  GetSoundByName E ["A"; "A"; "B"] pool = GetSoundByName E ["A"; "B"] pool ∧
  (∀ names1 n names2, (∀ p, p ∈ pool → Matches E n p = false) →
     GetSoundByName E (names1 ++ n :: names2) pool =
     GetSoundByName E (names1 ++ names2) pool) ∧
  (∀ names, GetSoundByName E names pool =
     AppendDistinct [] (concat ((λ n, filter (λ p, Matches E n p) pool) <$> names))).
Proof.
  split; [|split; [|split; [|split; [|split]]]].
  - intros names. apply GetImageByName_eq.
  - intros names. apply GetSoundByName_NoDup.
  - intros names1 n' n names2 Hn' Hfold.
    apply (GetSoundByName_duplicate E names1 n'); [done|].
    by apply FString_eqb_CaseFold.
  - apply (GetSoundByName_duplicate E ["A"] "A" "A" ["B"]); [|done].
    apply elem_of_cons. by left.
  - intros names1 n names2. apply GetSoundByName_no_match.
  - intros names. apply GetSoundByName_spec.
Qed.

Lemma C6_resolution_deduplicates_witness :
  GetSoundByName Demo.Environment (["a"] ++ "A" :: ["B"]) Demo.Sounds =
  GetSoundByName Demo.Environment (["a"] ++ ["B"]) Demo.Sounds ∧
  GetSoundByName Demo.Environment (["A"] ++ "Missing" :: ["B"]) Demo.Sounds =
  GetSoundByName Demo.Environment (["A"] ++ ["B"]) Demo.Sounds.
Proof.
  destruct (C6_resolution_deduplicates Demo.Environment Demo.Sounds)
    as (_ & _ & Hdup & _ & Hnone & _).
  split.
  - apply (Hdup ["a"] "a" "A" ["B"]); [|reflexivity].
    apply elem_of_cons. by left.
  - apply (Hnone ["A"] "Missing" ["B"]). intros p Hp. unfold Demo.Sounds in Hp.
    repeat (apply elem_of_cons in Hp as [->|Hp]; [reflexivity|]).
    by apply elem_of_nil in Hp.
Defined.

(** ** Actor resolution *)

Lemma At_head {A : Type} (l : list A) :
  At l 0 = match l with
           | [] => ArrayIndexOutOfBounds 0 0
           | x :: _ => Returns x
           end.
Proof.
  unfold At. destruct l as [|x l]; [done|]. simpl length.
  replace (0 <? Z.of_nat (S (length l))) with true by (symmetry; apply Z.ltb_lt; lia).
  done.
Qed.

Lemma At_in_range {A : Type} (l : list A) (i : nat) (x : A) :
  l !! i = Some x → At l (Z.of_nat i) = Returns x.
Proof.
  intros H. unfold At. pose proof (lookup_lt_Some _ _ _ H) as Hlt.
  replace (0 <=? Z.of_nat i) with true by (symmetry; apply Z.leb_le; lia).
  replace (Z.of_nat i <? Z.of_nat (length l)) with true
    by (symmetry; apply Z.ltb_lt; lia).
  simpl. by rewrite Nat2Z.id, H.
Qed.

Lemma At_out_of_range {A : Type} (l : list A) (i : Z) :
  Z.of_nat (length l) ≤ i → At l i = ArrayIndexOutOfBounds i (Z.of_nat (length l)).
Proof.
  intros H. unfold At.
  replace (i <? Z.of_nat (length l)) with false by (symmetry; apply Z.ltb_ge; lia).
  by rewrite andb_false_r.
Qed.

Section Actors.
Context (E : Env).

Lemma AllTagged_cons cp CPActors :
  AllTagged E (cp :: CPActors) → AllTagged E CPActors.
Proof. intros H a Ha. apply H, elem_of_cons. by right. Qed.

(** With every live candidate tagged, the scan completes: it stops at the
    first live actor whose first tag the engine holds equal to the name,
    or runs off the end of the list. *)
Lemma GetActorByName_scan ActorName CPActors :
  AllTagged E CPActors →
  (∃ before a tag after,
      CPActors = before ++ Some a :: after ∧
      head (Tags E a) = Some tag ∧
      FName_eqb tag (MakeFName ActorName) = true ∧
      (∀ b tagb, Some b ∈ before → head (Tags E b) = Some tagb →
                 FName_eqb tagb (MakeFName ActorName) = false) ∧
      GetActorByName E ActorName CPActors = Returns (Some a, true, "Actor Found"))
  ∨ ((∀ b tagb, Some b ∈ CPActors → head (Tags E b) = Some tagb →
                FName_eqb tagb (MakeFName ActorName) = false) ∧
     GetActorByName E ActorName CPActors = Returns (None, false, "Actor Not Found")).
Proof.
  induction CPActors as [|cp CPActors IH]; intros Htag.
  - right. split; [|done]. intros b tagb Hb. by apply elem_of_nil in Hb.
  - specialize (IH (AllTagged_cons _ _ Htag)). destruct cp as [a|]; simpl.
    + rewrite At_head.
      destruct (Tags E a) as [|tag tags] eqn:Htags.
      { exfalso. apply (Htag a); [apply elem_of_cons; by left|done]. }
      simpl. destruct (FName_eqb tag (MakeFName ActorName)) eqn:Hcmp.
      * left. exists [], a, tag, CPActors. rewrite Htags.
        repeat split; try done. intros b tagb Hb. by apply elem_of_nil in Hb.
      * destruct IH as [(before & a' & tag' & after & -> & Hh & Hm & Hbefore & Hret)
                       |[Hnone Hret]].
        -- left. exists (Some a :: before), a', tag', after.
           repeat split; try done.
           intros b tagb [Hb|Hb]%elem_of_cons Hhead.
           ++ injection Hb as ->. rewrite Htags in Hhead. by injection Hhead as <-.
           ++ by apply (Hbefore b).
        -- right. split; [|done].
           intros b tagb [Hb|Hb]%elem_of_cons Hhead.
           ++ injection Hb as ->. rewrite Htags in Hhead. by injection Hhead as <-.
           ++ by apply (Hnone b).
    + destruct IH as [(before & a' & tag' & after & -> & Hh & Hm & Hbefore & Hret)
                     |[Hnone Hret]].
      * left. exists (None :: before), a', tag', after.
        repeat split; try done.
        intros b tagb [Hb|Hb]%elem_of_cons Hhead; [done|]. by apply (Hbefore b).
      * right. split; [|done].
        intros b tagb [Hb|Hb]%elem_of_cons Hhead; [done|]. by apply (Hnone b).
Qed.

(** In particular the call returns, and what it returns is the resolved
    actor with a flag that tells whether it is live. *)
Lemma GetActorByName_returns ActorName CPActors :
  AllTagged E CPActors →
  ∃ actor success message,
    GetActorByName E ActorName CPActors = Returns (actor, success, message) ∧
    (success = false → actor = None ∧ message = "Actor Not Found").
Proof.
  intros Htag.
  destruct (GetActorByName_scan ActorName CPActors Htag)
    as [(before & a & tag & after & _ & _ & _ & _ & Hret)|[_ Hret]];
    rewrite Hret.
  - exists (Some a), true, "Actor Found". split; [done|]. discriminate.
  - exists None, false, "Actor Not Found". by split.
Qed.

End Actors.

(** C7, as the specification states it, is refuted: a lookup for "cp_1"
    does match the actor tagged "CP_1". *)
Lemma C7_case_sensitive_refuted :
  Tags Demo.Environment 10%nat = ["CP_1"] ∧ "CP_1" ≠ "cp_1" ∧
  GetActorByName Demo.Environment "cp_1" Demo.Actors = Returns (Some 10%nat, true, "Actor Found").
Proof. repeat split; try reflexivity; discriminate. Qed.

(** C7, amended: when every live candidate carries a tag, [GetActorByName]
    returns the first non-null actor of the list whose first tag equals the
    name [FName(ActorName)] under the comparison of [FName], which ignores
    the case of ASCII letters (a lookup for "cp_1" matches an actor tagged
    "CP_1") and in which the empty target name is the name None, with
    success set and the message "Actor Found"; when no live actor matches
    in that sense it returns null with success unset and the message
    "Actor Not Found". *)
Theorem C7_GetActorByName_first_match (E : Env) (ActorName : FString)
    (CPActors : list Ptr) :
  AllTagged E CPActors →
  (∃ before a tag after,
      CPActors = before ++ Some a :: after ∧
      head (Tags E a) = Some tag ∧
      CaseFold tag = CaseFold (MakeFName ActorName) ∧
      (∀ b tagb, Some b ∈ before → head (Tags E b) = Some tagb →
                 CaseFold tagb ≠ CaseFold (MakeFName ActorName)) ∧
      GetActorByName E ActorName CPActors = Returns (Some a, true, "Actor Found"))
  ∨ ((∀ b tagb, Some b ∈ CPActors → head (Tags E b) = Some tagb →
                CaseFold tagb ≠ CaseFold (MakeFName ActorName)) ∧
     GetActorByName E ActorName CPActors = Returns (None, false, "Actor Not Found")).
Proof.
  intros Htag.
  assert (Hne : ∀ t, FName_eqb t (MakeFName ActorName) = false →
                     CaseFold t ≠ CaseFold (MakeFName ActorName)).
  { intros t Hf Heq. apply FString_eqb_CaseFold in Heq.
    unfold FName_eqb in Hf. congruence. }
  destruct (GetActorByName_scan E ActorName CPActors Htag)
    as [(before & a & tag & after & Hl & Hh & Hm & Hbefore & Hret)|[Hnone Hret]].
  - left. exists before, a, tag, after. repeat split; try done.
    + by apply FString_eqb_CaseFold.
    + intros b tagb Hb Hhead. by apply Hne, (Hbefore b).
  - right. split; [|done]. intros b tagb Hb Hhead. by apply Hne, (Hnone b).
Qed.

Lemma Demo_Actors_tagged : AllTagged Demo.Environment Demo.Actors.
Proof.
  intros a Ha. unfold Demo.Actors in Ha.
  repeat (apply elem_of_cons in Ha as [Ha|Ha];
          [try discriminate; injection Ha as ->; discriminate|]).
  by apply elem_of_nil in Ha.
Defined.

Lemma C7_GetActorByName_first_match_witness :
  AllTagged Demo.Environment Demo.Actors ∧
  ((∃ before a tag after,
      Demo.Actors = before ++ Some a :: after ∧
      head (Tags Demo.Environment a) = Some tag ∧
      CaseFold tag = CaseFold (MakeFName "cp_2") ∧
      (∀ b tagb, Some b ∈ before → head (Tags Demo.Environment b) = Some tagb →
                 CaseFold tagb ≠ CaseFold (MakeFName "cp_2")) ∧
      GetActorByName Demo.Environment "cp_2" Demo.Actors =
      Returns (Some a, true, "Actor Found"))
   ∨ ((∀ b tagb, Some b ∈ Demo.Actors → head (Tags Demo.Environment b) = Some tagb →
                 CaseFold tagb ≠ CaseFold (MakeFName "cp_2")) ∧
      GetActorByName Demo.Environment "cp_2" Demo.Actors =
      Returns (None, false, "Actor Not Found"))).
Proof.
  split; [exact Demo_Actors_tagged|].
  exact (C7_GetActorByName_first_match Demo.Environment "cp_2" Demo.Actors
           Demo_Actors_tagged).
Defined.

(** The empty target name is the name None: it finds an actor whose first
    tag is None, and an actor tagged "CP_1" is not found by it. *)
Example GetActorByName_empty_name :
  GetActorByName Demo2.Nameless "" [Some 10%nat; Some 30%nat] =
  Returns (Some 30%nat, true, "Actor Found") ∧
  GetActorByName Demo2.Nameless "none" [Some 10%nat; Some 30%nat] =
  Returns (Some 30%nat, true, "Actor Found") ∧
  GetActorByName Demo2.Nameless "" [Some 10%nat] =
  Returns (None, false, "Actor Not Found").
Proof. repeat split. Qed.

(** ** Maps filled by successive [TMap::Add] *)

Section AddAll.
Context {R K V : Type} `{Countable K} (key : R → K) (val : R → V).
Implicit Types (records : list R) (m : gmap K V).

Local Abbreviation AddAll := (AddAll key val).

Lemma AddAll_app records1 records2 m :
  AddAll (records1 ++ records2) m = AddAll records2 (AddAll records1 m).
Proof. apply fold_left_app. Qed.

(** A key no later record uses keeps its value. *)
Lemma AddAll_lookup_other records m k :
  (∀ r, r ∈ records → key r ≠ k) → AddAll records m !! k = m !! k.
Proof.
  revert m. induction records as [|r records IH]; intros m Hk; [done|].
  simpl. rewrite IH.
  - apply lookup_insert_ne, Hk, elem_of_cons. by left.
  - intros r' Hr'. apply Hk, elem_of_cons. by right.
Qed.

(** The value under a key is that of the last record that used it. *)
Lemma AddAll_lookup_last before r after m :
  (∀ r', r' ∈ after → key r' ≠ key r) →
  AddAll (before ++ r :: after) m !! key r = Some (val r).
Proof.
  intros Hafter. rewrite AddAll_app. simpl.
  rewrite AddAll_lookup_other by done. apply lookup_insert_eq.
Qed.


Lemma size_insert_le m k v : (size (<[k := v]> m) ≤ S (size m))%nat.
Proof.
  destruct (m !! k) eqn:Hk.
  - rewrite map_size_insert_Some by eauto. lia.
  - rewrite map_size_insert_None by done. lia.
Qed.

Lemma size_AddAll_le records m :
  (size (AddAll records m) ≤ size m + length records)%nat.
Proof.
  revert m. induction records as [|r records IH]; intros m; simpl; [lia|].
  specialize (IH (<[key r := val r]> m)).
  pose proof (size_insert_le m (key r) (val r)). lia.
Qed.


End AddAll.

(** ** The checkpoint loader *)

Section Checkpoints.
Context (E : Env).
Implicit Types (st : ProgramState) (records : list FCheckpointRecord)
               (gd : FCheckpointsGameData) (sounds actors : list Ptr).

Lemma AddOnScreenDebugMessage_returns message st :
  AddOnScreenDebugMessage E message st = Returns (tt, Shown E message st).
Proof. unfold AddOnScreenDebugMessage, Shown. by destruct (GEngine E). Qed.

Lemma Shown_static message st :
  DataStructure (Shown E message st) = DataStructure st.
Proof. unfold Shown. by destruct (GEngine E). Qed.

(** One turn of the loop. *)
Lemma LoadCheckpointsData_loop_cons sounds actors r records gd st :
  LoadCheckpointsData_loop E sounds actors (r :: records) gd st =
  match GetActorByName E (CheckpointName r) actors with
  | Returns (actor, success, message) =>
      LoadCheckpointsData_loop E sounds actors records
        (AddCheckpoint E sounds actors gd r)
        (if success then st else Shown E message st)
  | ArrayIndexOutOfBounds i n => ArrayIndexOutOfBounds i n
  end.
Proof.
  simpl. unfold mbind, Exec_bind, lift, AddCheckpoint, ResolvedActor.
  destruct (GetActorByName E (CheckpointName r) actors)
    as [[[actor success] message]|i n]; [|done].
  destruct success; simpl; [done|].
  by rewrite AddOnScreenDebugMessage_returns.
Qed.

(** The value of the loop does not depend on the state it starts in. *)
Lemma LoadCheckpointsData_loop_value sounds actors records gd st1 st2 :
  value (LoadCheckpointsData_loop E sounds actors records gd st1) =
  value (LoadCheckpointsData_loop E sounds actors records gd st2).
Proof.
  revert gd st1 st2. induction records as [|r records IH]; intros gd st1 st2.
  - done.
  - rewrite !LoadCheckpointsData_loop_cons.
    destruct (GetActorByName E (CheckpointName r) actors)
      as [[[actor success] message]|i n]; [|done].
    apply IH.
Qed.

(** The loop leaves the [static] alone. *)
Lemma LoadCheckpointsData_loop_static sounds actors records gd st gd' st' :
  LoadCheckpointsData_loop E sounds actors records gd st = Returns (gd', st') →
  DataStructure st' = DataStructure st.
Proof.
  revert gd st. induction records as [|r records IH]; intros gd st.
  - simpl. unfold mret, Exec_ret. by intros [= _ ->].
  - rewrite LoadCheckpointsData_loop_cons.
    destruct (GetActorByName E (CheckpointName r) actors)
      as [[[actor success] message]|i n]; [|done].
    intros Hloop%IH. rewrite Hloop. destruct success; [done|apply Shown_static].
Qed.

(** With every live candidate tagged, the loop runs to its end. *)
Lemma LoadCheckpointsData_loop_returns sounds actors records gd st :
  AllTagged E actors →
  ∃ st', LoadCheckpointsData_loop E sounds actors records gd st =
         Returns (fold_left (AddCheckpoint E sounds actors) records gd, st').
Proof.
  intros Htag. revert gd st. induction records as [|r records IH]; intros gd st.
  - by exists st.
  - rewrite LoadCheckpointsData_loop_cons.
    destruct (GetActorByName_returns E (CheckpointName r) actors Htag)
      as (actor & success & message & -> & _).
    apply IH.
Qed.

Lemma AddCheckpoint_ActorsToFollow sounds actors records gd :
  ActorsToFollow (fold_left (AddCheckpoint E sounds actors) records gd) =
  ActorsToFollow gd ++ (ResolvedActor E actors <$> records).
Proof.
  revert gd. induction records as [|r records IH]; intros gd; simpl.
  - by rewrite app_nil_r.
  - rewrite IH. simpl. by rewrite <- app_assoc.
Qed.

Lemma AddCheckpoint_ActorFrameMap sounds actors records gd :
  ActorFrameMap (fold_left (AddCheckpoint E sounds actors) records gd) =
  AddAll (ResolvedActor E actors) CheckpointFrameNumber records (ActorFrameMap gd).
Proof.
  revert gd. induction records as [|r records IH]; intros gd; simpl; [done|].
  by rewrite IH.
Qed.

Lemma AddCheckpoint_ActorKeyMap sounds actors records gd :
  ActorKeyMap (fold_left (AddCheckpoint E sounds actors) records gd) =
  AddAll (ResolvedActor E actors) (NarrationKeysOf E sounds) records (ActorKeyMap gd).
Proof.
  revert gd. induction records as [|r records IH]; intros gd; simpl; [done|].
  by rewrite IH.
Qed.

(** The call: the initialiser of the [static], then the loop. *)
Lemma LoadCheckpointsData_unfold World path sounds actors st :
  LoadCheckpointsData E World path sounds actors st =
  LoadCheckpointsData_loop E sounds actors (C_Data (IteratedStructure E path st))
    NoCheckpoints
    {| DataStructure := Some (IteratedStructure E path st);
       OnScreenDebugMessages := OnScreenDebugMessages st |}.
Proof.
  unfold LoadCheckpointsData, mbind, Exec_bind, CheckpointsStatic, IteratedStructure.
  destruct st as [[d|] screen]; simpl; [done|].
  by destruct (ReadCheckpointsData E path) as [[d success] message].
Qed.


(** What a completed call returns, and the state it leaves. *)
Lemma LoadCheckpointsData_returns World path sounds actors st :
  AllTagged E actors →
  ∃ st',
    LoadCheckpointsData E World path sounds actors st =
    Returns (fold_left (AddCheckpoint E sounds actors)
               (C_Data (IteratedStructure E path st)) NoCheckpoints, st') ∧
    DataStructure st' = Some (IteratedStructure E path st).
Proof.
  intros Htag. rewrite LoadCheckpointsData_unfold.
  destruct (LoadCheckpointsData_loop_returns sounds actors
              (C_Data (IteratedStructure E path st)) NoCheckpoints
              {| DataStructure := Some (IteratedStructure E path st);
                 OnScreenDebugMessages := OnScreenDebugMessages st |} Htag)
    as [st' Hloop].
  exists st'. split; [done|].
  by rewrite (LoadCheckpointsData_loop_static _ _ _ _ _ _ _ Hloop).
Qed.

End Checkpoints.






(** The tour of "b.json", evaluated: three records, two of them unresolved,
    three entries in [ActorsToFollow], two in each map, and the null key
    holding the frame of the last unresolved record. *)
Example LoadCheckpointsData_TourB :
  (λ g, (ActorsToFollow g, size (ActorFrameMap g), size (ActorKeyMap g),
         ActorFrameMap g !! None)) <$>
  value (LoadCheckpointsData Demo.Environment None "b.json" Demo.Sounds Demo.Actors InitialState) =
  Some ([Some 11%nat; None; None], 2%nat, 2%nat, Some 90).
Proof. vm_compute. reflexivity. Qed.

(** ** The learn-more loader *)

Section LearnMore.
Context (E : Env).

Lemma PopulateLearnMoreUI_loop_spec CurrentActorIndex sounds images Data acc :
  PopulateLearnMoreUI_loop E CurrentActorIndex sounds images Data acc =
  {| LearnMoreData :=
       LearnMoreData acc ++
       (LearnMoreNarrationOf E sounds images <$>
        filter (λ data, L_CorrespondingCPIndex data = CurrentActorIndex) Data) |}.
Proof.
  revert acc. induction Data as [|data Data IH]; intros acc; simpl.
  - rewrite app_nil_r. by destruct acc.
  - rewrite filter_cons.
    destruct (Z.eqb_spec (L_CorrespondingCPIndex data) CurrentActorIndex) as [Heq|Hne].
    + rewrite decide_True by done. rewrite IH. simpl. by rewrite <- app_assoc.
    + rewrite decide_False by done. apply IH.
Qed.

Lemma PopulateLearnMoreUI_spec JSONpath CurrentActorIndex sounds images st :
  PopulateLearnMoreUI E JSONpath CurrentActorIndex sounds images st =
  Returns ({| LearnMoreData :=
                LearnMoreNarrationOf E sounds images <$>
                filter (λ data, L_CorrespondingCPIndex data = CurrentActorIndex)
                       (L_Data (ReadLearnMoreData E JSONpath).1.1) |}, st).
Proof.
  unfold PopulateLearnMoreUI.
  destruct (ReadLearnMoreData E JSONpath) as [[d success] message]. simpl.
  by rewrite PopulateLearnMoreUI_loop_spec.
Qed.

End LearnMore.

(** C9: for every learn-more file and every current checkpoint index,
    [PopulateLearnMoreUI] returns, in input order, the narrations of
    exactly the records whose [CorrespondingCPIndex] equals the index; and
    each returned narration carries that index. *)
Theorem C9_PopulateLearnMoreUI_exact_index (E : Env) (JSONpath : FString)
    (CurrentActorIndex : Z) (NarrativeSounds Images : list Ptr) (st : ProgramState) :
  PopulateLearnMoreUI E JSONpath CurrentActorIndex NarrativeSounds Images st =
  Returns ({| LearnMoreData :=
                LearnMoreNarrationOf E NarrativeSounds Images <$>
                filter (λ data, L_CorrespondingCPIndex data = CurrentActorIndex)
                       (L_Data (ReadLearnMoreData E JSONpath).1.1) |}, st) ∧
  Forall (λ narration, CorrespondingCPIndex narration = CurrentActorIndex)
    (LearnMoreNarrationOf E NarrativeSounds Images <$>
     filter (λ data, L_CorrespondingCPIndex data = CurrentActorIndex)
            (L_Data (ReadLearnMoreData E JSONpath).1.1)).
Proof.
  split; [apply PopulateLearnMoreUI_spec|].
  apply Forall_fmap, Forall_forall. intros data Hdata.
  by apply list_elem_of_filter in Hdata as [Hidx _].
Qed.

(** The specification's example: owning indices [0,1,1,2] and current index
    1 give the second and third records, in that order. *)
Example PopulateLearnMoreUI_Panels :
  L_CorrespondingCPIndex <$> L_Data Demo.Panels = [0; 1; 1; 2] ∧
  (λ g, m_TitleKey <$> LearnMoreData g) <$>
  value (PopulateLearnMoreUI Demo.Environment "learnmore.json" 1 Demo.Sounds Demo.Images
           InitialState) = Some ["P1"; "P2"].
Proof. split; reflexivity. Qed.

(** ** The instruction loader *)

Section Instructions.
Context (E : Env).

(** The loop runs to its end, and only ever adds to the screen. *)
Lemma LoadInstructionsData_loop_returns success message sounds Data acc st :
  ∃ st',
    LoadInstructionsData_loop E success message sounds Data acc st =
    Returns (fold_left (λ acc r,
               {| InstructionKeyMap :=
                    <[StringToInstructions (InstructionType r) :=
                        InstructionNarrationOf E sounds r]> (InstructionKeyMap acc) |})
               Data acc, st') ∧
    DataStructure st' = DataStructure st.
Proof.
  revert acc st. induction Data as [|r Data IH]; intros acc st.
  - by exists st.
  - simpl. unfold mbind, Exec_bind. destruct success; simpl.
    + apply IH.
    + rewrite AddOnScreenDebugMessage_returns.
      destruct (IH {| InstructionKeyMap :=
                        <[StringToInstructions (InstructionType r) :=
                            InstructionNarrationOf E sounds r]> (InstructionKeyMap acc) |}
                   (Shown E message st)) as (st' & Hloop & Hstatic).
      exists st'. split; [done|]. by rewrite Hstatic, Shown_static.
Qed.

Lemma LoadInstructionsData_returns World path sounds st :
  ∃ st',
    LoadInstructionsData E World path sounds st =
    Returns (fold_left (λ acc r,
               {| InstructionKeyMap :=
                    <[StringToInstructions (InstructionType r) :=
                        InstructionNarrationOf E sounds r]> (InstructionKeyMap acc) |})
               (I_Data (ReadInstructionsData E path).1.1)
               {| InstructionKeyMap := ∅ |}, st') ∧
    DataStructure st' = DataStructure st.
Proof.
  unfold LoadInstructionsData.
  destruct (ReadInstructionsData E path) as [[d success] message]. simpl.
  apply LoadInstructionsData_loop_returns.
Qed.

Lemma LoadQuizQuestions_returns st :
  ∃ st',
    LoadQuizQuestions E st =
    Returns ((ReadQuizQuestions E
                (ProjectContentDir E +:+ "/JSONFiles/AutomatedTour/quiz.json")).1.1, st') ∧
    DataStructure st' = DataStructure st.
Proof.
  unfold LoadQuizQuestions.
  destruct (ReadQuizQuestions E _) as [[quizData success] message]. simpl.
  unfold mbind, Exec_bind. destruct success; simpl.
  - by exists st.
  - rewrite AddOnScreenDebugMessage_returns. exists (Shown E message st).
    split; [done|apply Shown_static].
Qed.

End Instructions.

(** ** The quiz populator *)

Section Quiz.
Context (E : Env).
Implicit Types (options : TArray FQuizQuestionOption) (k remaining : nat).

(** One turn of the loop at a position below [Num()]. *)
Lemma PopulateQuizUI_loop_step sounds options remaining k o narration narrationMap :
  Elements options !! k = Some o →
  PopulateQuizUI_loop E sounds options options (S remaining) (Z.of_nat k)
    narration narrationMap =
  let narration' :=
    {| m_FrenchNarrationSounds := GetSoundByName E [FrenchNarrationSound o] sounds;
       m_EnglishNarrationSounds := GetSoundByName E [EnglishNarrationSound o] sounds;
       m_Images := m_Images narration;
       CorrespondingCPIndex := CorrespondingCPIndex narration;
       m_TitleKey := OptionName o;
       m_Keys := m_Keys narration ++ [OptionDescription o];
       m_SourceName := m_SourceName narration |} in
  PopulateQuizUI_loop E sounds options options remaining (Z.of_nat (S k))
    narration' (<[Z.of_nat k := narration']> narrationMap).
Proof.
  intros Ho. simpl PopulateQuizUI_loop. rewrite (At_in_range _ _ _ Ho). simpl.
  by replace (Z.of_nat k + 1) with (Z.of_nat (S k)) by lia.
Qed.

(** The loop reads its two arrays through their elements only. *)
Lemma PopulateQuizUI_loop_Elements sounds options1 Options1 options2 Options2
    remaining i narration narrationMap :
  Elements options1 = Elements options2 →
  Elements Options1 = Elements Options2 →
  PopulateQuizUI_loop E sounds options1 Options1 remaining i narration narrationMap =
  PopulateQuizUI_loop E sounds options2 Options2 remaining i narration narrationMap.
Proof.
  intros Hoptions HOptions. revert i narration narrationMap.
  induction remaining as [|remaining IH]; intros i narration narrationMap; [done|].
  simpl. rewrite Hoptions, HOptions.
  destruct (At (Elements options2) i) as [o|]; [|done]. simpl.
  destruct (At (Elements Options2) i) as [o'|]; [|done]. simpl.
  apply IH.
Qed.

(** With the bound at the logical end, the loop completes and fills the
    positions from [k] on. *)
Lemma PopulateQuizUI_loop_fills sounds options remaining k narration narrationMap :
  (k + remaining = length (Elements options))%nat →
  m_Keys narration = OptionDescription <$> take k (Elements options) →
  m_Images narration = [] →
  CorrespondingCPIndex narration = 0 →
  m_SourceName narration = "" →
  ∃ narrationMap',
    PopulateQuizUI_loop E sounds options options remaining (Z.of_nat k)
      narration narrationMap = Returns narrationMap' ∧
    (∀ j o, (k ≤ j)%nat → Elements options !! j = Some o →
       narrationMap' !! Z.of_nat j =
       Some (QuizNarration E sounds (Elements options) j o)) ∧
    (∀ z, ¬ (Z.of_nat k ≤ z < Z.of_nat (length (Elements options))) →
       narrationMap' !! z = narrationMap !! z).
Proof.
  revert k narration narrationMap.
  induction remaining as [|remaining IH];
    intros k narration narrationMap Hlen Hkeys Himg Hidx Hsrc.
  - exists narrationMap. split; [done|]. split; [|done].
    intros j o Hj Ho. apply lookup_lt_Some in Ho. lia.
  - destruct (Elements options !! k) as [o|] eqn:Ho;
      [|apply lookup_ge_None in Ho; lia].
    rewrite (PopulateQuizUI_loop_step _ _ _ _ _ _ _ Ho). simpl.
    assert (Htake : OptionDescription <$> take (S k) (Elements options) =
                    m_Keys narration ++ [OptionDescription o]).
    { rewrite (take_S_r _ _ _ Ho), fmap_app. by rewrite Hkeys. }
    match goal with
    | |- context [PopulateQuizUI_loop _ _ _ _ _ _ ?n ?m] =>
        destruct (IH (S k) n m) as (narrationMap' & Hloop & Hfilled & Hkept);
          [lia|by symmetry|done|done|done|]
    end.
    exists narrationMap'. split; [exact Hloop|]. split.
    + intros j o' Hj Ho'. destruct (decide (j = k)) as [->|Hne].
      * rewrite Hkept by lia. rewrite lookup_insert_eq.
        rewrite Ho in Ho'. injection Ho' as <-.
        unfold QuizNarration. by rewrite Htake, Himg, Hidx, Hsrc.
      * apply Hfilled; [lia|done].
    + intros z Hz. rewrite Hkept by lia. apply lookup_insert_ne. lia.
Qed.

(** The call, once the question is found: the loop runs [options.Max()]
    times, which is the element count the copy was sized for, from position
    0 with a fresh [narration] and an empty map. *)
Lemma PopulateQuizUI_unfold sounds QuizQuestions CurrentQuestionIndex question st :
  At (m_Questions QuizQuestions) CurrentQuestionIndex = Returns question →
  PopulateQuizUI E sounds QuizQuestions CurrentQuestionIndex st =
  match PopulateQuizUI_loop E sounds (TArray_copy (Options (QuestionOptions question)))
          (TArray_copy (Options (QuestionOptions question)))
          (length (Elements (Options (QuestionOptions question)))) 0
          FLearnMoreNarration_default ∅ with
  | Returns narrationMap => Returns ({| LearnMoreKeyMap := narrationMap |}, st)
  | ArrayIndexOutOfBounds i n => ArrayIndexOutOfBounds i n
  end.
Proof.
  intros Hq. unfold PopulateQuizUI, mbind, Exec_bind, lift. rewrite Hq.
  unfold Max. rewrite Nat2Z.id. simpl Elements. simpl Slack. rewrite Nat.add_0_r.
  rewrite (PopulateQuizUI_loop_Elements sounds
             (TArray_copy (Options (QuestionOptions question)))
             (Options (QuestionOptions question))
             (TArray_copy (Options (QuestionOptions question)))
             (TArray_copy (Options (QuestionOptions question)))) by done.
  by destruct (PopulateQuizUI_loop _ _ _ _ _ _ _ _).
Qed.

(** The state plays no part in the call. *)
Lemma PopulateQuizUI_value sounds QuizQuestions CurrentQuestionIndex st1 st2 :
  value (PopulateQuizUI E sounds QuizQuestions CurrentQuestionIndex st1) =
  value (PopulateQuizUI E sounds QuizQuestions CurrentQuestionIndex st2).
Proof.
  unfold PopulateQuizUI, mbind, Exec_bind, lift, mret, Exec_ret.
  destruct (At (m_Questions QuizQuestions) CurrentQuestionIndex) as [question|i n];
    [|done].
  by destruct (PopulateQuizUI_loop _ _ _ _ _ _ _ _).
Qed.

Lemma PopulateQuizUI_state sounds QuizQuestions CurrentQuestionIndex st tiles st' :
  PopulateQuizUI E sounds QuizQuestions CurrentQuestionIndex st = Returns (tiles, st') →
  st' = st.
Proof.
  unfold PopulateQuizUI, mbind, Exec_bind, lift, mret, Exec_ret.
  destruct (At (m_Questions QuizQuestions) CurrentQuestionIndex) as [question|i n];
    [|done].
  destruct (PopulateQuizUI_loop _ _ _ _ _ _ _ _); [|done].
  by intros [= _ ->].
Qed.

(** A call on a question that exists completes, and every position below
    the element count holds its entry, whatever the slack of the question's
    array. *)
Lemma PopulateQuizUI_entries sounds QuizQuestions CurrentQuestionIndex question st :
  At (m_Questions QuizQuestions) CurrentQuestionIndex = Returns question →
  ∃ tiles,
    PopulateQuizUI E sounds QuizQuestions CurrentQuestionIndex st = Returns (tiles, st) ∧
    (∀ j o, Elements (Options (QuestionOptions question)) !! j = Some o →
       LearnMoreKeyMap tiles !! Z.of_nat j =
       Some (QuizNarration E sounds (Elements (Options (QuestionOptions question))) j o)) ∧
    (∀ z, ¬ (0 ≤ z < Num (Options (QuestionOptions question))) →
       LearnMoreKeyMap tiles !! z = None).
Proof.
  intros Hq. rewrite (PopulateQuizUI_unfold _ _ _ _ _ Hq).
  destruct (PopulateQuizUI_loop_fills sounds
              (TArray_copy (Options (QuestionOptions question)))
              (length (Elements (Options (QuestionOptions question)))) 0
              FLearnMoreNarration_default ∅)
    as (narrationMap & Hloop & Hfilled & Hkept); try done.
  change (Z.of_nat 0) with 0 in Hloop. rewrite Hloop.
  exists {| LearnMoreKeyMap := narrationMap |}. split; [done|]. split.
  - intros j o Ho. apply Hfilled; [lia|done].
  - intros z Hz. simpl. rewrite Hkept by (unfold Num in Hz; simpl; lia).
    apply lookup_empty.
Qed.

End Quiz.

(** C3, on the code: for an in-range question whose options array has no
    slack, [PopulateQuizUI] returns a map that holds, under each 0-based
    option position, a bundle whose title key is that option's name and
    whose English and French sounds are resolved from that option's single
    sound-name; but its caption list holds the descriptions of all the
    options up to and including that position, not the one description. *)
Theorem C3_PopulateQuizUI_captions_accumulate (E : Env) (NarrativeSounds : list Ptr)
    (QuizQuestions : FQuizQuestions) (CurrentQuestionIndex : Z)
    (question : FQuizQuestion) (st : ProgramState) :
  At (m_Questions QuizQuestions) CurrentQuestionIndex = Returns question →
  Slack (Options (QuestionOptions question)) = 0%nat →
  ∃ tiles,
    PopulateQuizUI E NarrativeSounds QuizQuestions CurrentQuestionIndex st =
    Returns (tiles, st) ∧
    ∀ k o, Elements (Options (QuestionOptions question)) !! k = Some o →
      ∃ narration,
        LearnMoreKeyMap tiles !! Z.of_nat k = Some narration ∧
        m_TitleKey narration = OptionName o ∧
        m_Keys narration =
          OptionDescription <$> take (S k) (Elements (Options (QuestionOptions question))) ∧
        m_EnglishNarrationSounds narration =
          GetSoundByName E [EnglishNarrationSound o] NarrativeSounds ∧
        m_FrenchNarrationSounds narration =
          GetSoundByName E [FrenchNarrationSound o] NarrativeSounds.
Proof.
  intros Hq Hslack.
  destruct (PopulateQuizUI_entries E NarrativeSounds QuizQuestions CurrentQuestionIndex
              question st Hq) as (tiles & Hcall & Hfilled & _).
  exists tiles. split; [done|]. intros k o Ho.
  exists (QuizNarration E NarrativeSounds
            (Elements (Options (QuestionOptions question))) k o).
  split; [by apply Hfilled|done].
Qed.

Lemma C3_PopulateQuizUI_captions_accumulate_witness :
  ∃ tiles,
    PopulateQuizUI Demo.Environment Demo.Sounds Demo.Quiz 0 InitialState =
    Returns (tiles, InitialState) ∧
    ∀ k o, Demo.TwoOptions !! k = Some o →
      ∃ narration,
        LearnMoreKeyMap tiles !! Z.of_nat k = Some narration ∧
        m_TitleKey narration = OptionName o ∧
        m_Keys narration = OptionDescription <$> take (S k) Demo.TwoOptions ∧
        m_EnglishNarrationSounds narration =
          GetSoundByName Demo.Environment [EnglishNarrationSound o] Demo.Sounds ∧
        m_FrenchNarrationSounds narration =
          GetSoundByName Demo.Environment [FrenchNarrationSound o] Demo.Sounds.
Proof.
  exact (C3_PopulateQuizUI_captions_accumulate Demo.Environment Demo.Sounds Demo.Quiz 0
           {| QuestionOptions := {| Options := MkTArray Demo.TwoOptions 0 |} |}
           InitialState eq_refl eq_refl).
Defined.

(** The second option of the demo quiz, evaluated: its caption list has two
    elements, the first option's description and its own. *)
Example PopulateQuizUI_second_option :
  (λ tiles, m_Keys <$> LearnMoreKeyMap tiles !! 1) <$>
  value (PopulateQuizUI Demo.Environment Demo.Sounds Demo.Quiz 0 InitialState) =
  Some (Some ["It detects aircraft"; "It carries voices"]).
Proof. vm_compute. reflexivity. Qed.




(** ** Decode failures and the diagnostic sink *)

(** C1, on the code: when the decode of the file fails and gives the
    default-valued structure, every loader returns a result with zero
    records; but only [LoadQuizQuestions] hands the decoder's message to
    the screen.  [LoadInstructionsData] and [LoadCheckpointsData] emit from
    inside their per-record loop, which then runs zero times, and
    [PopulateLearnMoreUI] never emits: the three leave the screen exactly as
    it was, as a successful load of an empty file does. *)
Theorem C1_failed_decode_leaves_screen_unchanged (E : Env) (World : Ptr)
    (path : FString) (CurrentActorIndex : Z) (NarrativeSounds Images CPActors : list Ptr)
    (st : ProgramState) (message : FString) :
  GEngine E = true →
  DataStructure st = None →
  ReadInstructionsData E path = ({| I_Data := [] |}, false, message) →
  ReadCheckpointsData E path = ({| C_Data := [] |}, false, message) →
  ReadLearnMoreData E path = ({| L_Data := [] |}, false, message) →
  ReadQuizQuestions E (ProjectContentDir E +:+ "/JSONFiles/AutomatedTour/quiz.json") =
    ({| m_Questions := [] |}, false, message) →
  LoadInstructionsData E World path NarrativeSounds st =
    Returns ({| InstructionKeyMap := ∅ |}, st) ∧
  LoadCheckpointsData E World path NarrativeSounds CPActors st =
    Returns (NoCheckpoints,
             {| DataStructure := Some {| C_Data := [] |};
                OnScreenDebugMessages := OnScreenDebugMessages st |}) ∧
  PopulateLearnMoreUI E path CurrentActorIndex NarrativeSounds Images st =
    Returns ({| LearnMoreData := [] |}, st) ∧
  LoadQuizQuestions E st =
    Returns ({| m_Questions := [] |},
             {| DataStructure := DataStructure st;
                OnScreenDebugMessages :=
                  OnScreenDebugMessages st ++
                  [{| Key := -1; TimeToDisplay := 60; DisplayColor := Green;
                      DebugText := message |}] |}).
Proof.
  intros Hengine Hstatic Hinstr Hcheck Hlearn Hquiz.
  split; [|split; [|split]].
  - unfold LoadInstructionsData. by rewrite Hinstr.
  - rewrite LoadCheckpointsData_unfold. unfold IteratedStructure.
    by rewrite Hstatic, Hcheck.
  - unfold PopulateLearnMoreUI. by rewrite Hlearn.
  - unfold LoadQuizQuestions. rewrite Hquiz. simpl.
    unfold mbind, Exec_bind, AddOnScreenDebugMessage. by rewrite Hengine.
Qed.

Lemma C1_failed_decode_leaves_screen_unchanged_witness :
  LoadInstructionsData Demo.Environment None "missing.json" Demo.Sounds InitialState =
    Returns ({| InstructionKeyMap := ∅ |}, InitialState) ∧
  LoadCheckpointsData Demo.Environment None "missing.json" Demo.Sounds Demo.Actors InitialState =
    Returns (NoCheckpoints,
             {| DataStructure := Some {| C_Data := [] |};
                OnScreenDebugMessages := [] |}) ∧
  PopulateLearnMoreUI Demo.Environment "missing.json" 1 Demo.Sounds Demo.Images InitialState =
    Returns ({| LearnMoreData := [] |}, InitialState) ∧
  LoadQuizQuestions Demo.Environment InitialState =
    Returns ({| m_Questions := [] |},
             {| DataStructure := None;
                OnScreenDebugMessages :=
                  [] ++
                  [{| Key := -1; TimeToDisplay := 60; DisplayColor := Green;
                      DebugText := Demo.Failure |}] |}).
Proof.
  exact (C1_failed_decode_leaves_screen_unchanged Demo.Environment None "missing.json" 1
           Demo.Sounds Demo.Images Demo.Actors InitialState Demo.Failure
           eq_refl eq_refl eq_refl eq_refl eq_refl eq_refl).
Defined.

(** A successful load of the instruction file shows nothing either: the
    screen cannot tell a missing instruction file from a loaded one. *)
Example LoadInstructionsData_screens :
  screen (LoadInstructionsData Demo.Environment None "instructions.json" Demo.Sounds InitialState) =
  Some [] ∧
  screen (LoadInstructionsData Demo.Environment None "missing.json" Demo.Sounds InitialState) =
  Some [].
Proof. split; reflexivity. Qed.

(** ** What a call depends on *)

(** C2, as the specification states it, is refuted: after a first call of
    [LoadCheckpointsData] with "a.json", a call with "b.json" returns the
    checkpoints of "a.json", not what the same call returns in a fresh
    process. *)
Lemma C2_checkpoints_retained_across_calls :
  state (LoadCheckpointsData Demo.Environment None "a.json" Demo.Sounds Demo.Actors InitialState)
  = Some Demo.AfterTourA ∧
  (length ∘ ActorsToFollow) <$>
    value (LoadCheckpointsData Demo.Environment None "b.json" Demo.Sounds Demo.Actors InitialState)
  = Some 3%nat ∧
  (length ∘ ActorsToFollow) <$>
    value (LoadCheckpointsData Demo.Environment None "b.json" Demo.Sounds Demo.Actors Demo.AfterTourA)
  = Some 1%nat ∧
  value (LoadCheckpointsData Demo.Environment None "b.json" Demo.Sounds Demo.Actors InitialState) ≠
  value (LoadCheckpointsData Demo.Environment None "b.json" Demo.Sounds Demo.Actors Demo.AfterTourA).
Proof.
  split; [|split; [|split]]; try (vm_compute; reflexivity).
  intros Heq. apply (f_equal (fmap (length ∘ ActorsToFollow))) in Heq.
  vm_compute in Heq. discriminate.
Qed.

(** C2, amended: [LoadInstructionsData], [PopulateLearnMoreUI],
    [LoadQuizQuestions] and [PopulateQuizUI] return a result that is a
    function of their arguments (with the files and pools they read) alone,
    whatever the state earlier calls left, and they leave the retained
    structure as it was.  [LoadCheckpointsData] retains the structure its
    first call decoded in a function-local [static]: its result is a
    function of the sound pool, the actor list and the structure it iterates
    over, which is the file at [path] only while nothing is retained; once
    a structure is retained the call returns the same result whatever
    [path] it is given, and every completed call leaves a structure
    retained. *)
Theorem C2_only_the_checkpoint_static_is_retained (E : Env) :
  (∀ World path sounds st1 st2,
     value (LoadInstructionsData E World path sounds st1) =
     value (LoadInstructionsData E World path sounds st2)) ∧
  (∀ path index sounds images st1 st2,
     value (PopulateLearnMoreUI E path index sounds images st1) =
     value (PopulateLearnMoreUI E path index sounds images st2)) ∧
  (∀ st1 st2, value (LoadQuizQuestions E st1) = value (LoadQuizQuestions E st2)) ∧
  (∀ sounds quiz index st1 st2,
     value (PopulateQuizUI E sounds quiz index st1) =
     value (PopulateQuizUI E sounds quiz index st2)) ∧
  (∀ World path sounds st,
     DataStructure <$> state (LoadInstructionsData E World path sounds st) =
     Some (DataStructure st)) ∧
  (∀ path index sounds images st,
     DataStructure <$> state (PopulateLearnMoreUI E path index sounds images st) =
     Some (DataStructure st)) ∧
  (∀ st, DataStructure <$> state (LoadQuizQuestions E st) = Some (DataStructure st)) ∧
  (∀ sounds quiz index st st',
     state (PopulateQuizUI E sounds quiz index st) = Some st' → st' = st) ∧
  (∀ World path sounds actors st1 st2,
     IteratedStructure E path st1 = IteratedStructure E path st2 →
     value (LoadCheckpointsData E World path sounds actors st1) =
     value (LoadCheckpointsData E World path sounds actors st2)) ∧
  (∀ World path path' sounds actors st,
     is_Some (DataStructure st) →
     value (LoadCheckpointsData E World path sounds actors st) =
     value (LoadCheckpointsData E World path' sounds actors st)) ∧
  (∀ World path sounds actors st st',
     state (LoadCheckpointsData E World path sounds actors st) = Some st' →
     DataStructure st' = Some (IteratedStructure E path st)).
Proof.
  repeat apply conj.
  - intros World path sounds st1 st2.
    destruct (LoadInstructionsData_returns E World path sounds st1) as (? & -> & _).
    by destruct (LoadInstructionsData_returns E World path sounds st2) as (? & -> & _).
  - intros path index sounds images st1 st2. by rewrite !PopulateLearnMoreUI_spec.
  - intros st1 st2.
    destruct (LoadQuizQuestions_returns E st1) as (? & -> & _).
    by destruct (LoadQuizQuestions_returns E st2) as (? & -> & _).
  - intros sounds quiz index st1 st2. apply PopulateQuizUI_value.
  - intros World path sounds st.
    destruct (LoadInstructionsData_returns E World path sounds st) as (? & -> & Hs).
    simpl. by rewrite Hs.
  - intros path index sounds images st. by rewrite PopulateLearnMoreUI_spec.
  - intros st. destruct (LoadQuizQuestions_returns E st) as (? & -> & Hs).
    simpl. by rewrite Hs.
  - intros sounds quiz index st st' Hstate.
    destruct (PopulateQuizUI E sounds quiz index st) as [[tiles st'']|] eqn:Hcall;
      [|done].
    injection Hstate as ->. by apply PopulateQuizUI_state in Hcall.
  - intros World path sounds actors st1 st2 Hsame.
    rewrite !LoadCheckpointsData_unfold, Hsame. apply LoadCheckpointsData_loop_value.
  - intros World path path' sounds actors st [d Hd].
    rewrite !LoadCheckpointsData_unfold. unfold IteratedStructure. rewrite Hd.
    apply LoadCheckpointsData_loop_value.
  - intros World path sounds actors st st' Hstate.
    rewrite LoadCheckpointsData_unfold in Hstate.
    destruct (LoadCheckpointsData_loop _ _ _ _ _ _) as [[gd st'']|] eqn:Hloop; [|done].
    injection Hstate as ->.
    by rewrite (LoadCheckpointsData_loop_static _ _ _ _ _ _ _ _ Hloop).
Qed.

Lemma C2_only_the_checkpoint_static_is_retained_witness :
  value (LoadCheckpointsData Demo.Environment None "a.json" Demo.Sounds Demo.Actors Demo.AfterTourA) =
  value (LoadCheckpointsData Demo.Environment None "b.json" Demo.Sounds Demo.Actors Demo.AfterTourA).
Proof.
  destruct (C2_only_the_checkpoint_static_is_retained Demo.Environment)
    as (_ & _ & _ & _ & _ & _ & _ & _ & _ & Hpath & _).
  apply Hpath. exists Demo.TourA. reflexivity.
Defined.

(** * Further properties of the loaders and helpers *)

(** ** The instruction loader: its map and its messages *)

Section InstructionsMore.
Context (E : Env).

Lemma InstructionKeyMap_fold sounds Data acc :
  InstructionKeyMap
    (fold_left (λ acc r,
       {| InstructionKeyMap :=
            <[StringToInstructions (InstructionType r) :=
                InstructionNarrationOf E sounds r]> (InstructionKeyMap acc) |})
       Data acc) =
  AddAll InstructionKindOf (InstructionNarrationOf E sounds) Data (InstructionKeyMap acc).
Proof.
  revert acc. induction Data as [|r Data IH]; intros acc; simpl; [done|].
  by rewrite IH.
Qed.

(** The caption keys are copied one by one, in order. *)
Lemma CaptionKeys_copy (keys acc : list FString) :
  fold_left (λ keys captionKey, keys ++ [captionKey]) keys acc = acc ++ keys.
Proof.
  revert acc. induction keys as [|k keys IH]; intros acc; simpl.
  - by rewrite app_nil_r.
  - by rewrite IH, <- app_assoc.
Qed.

Lemma Shown_ShownTimes message n st :
  Shown E message (ShownTimes E n message st) = ShownTimes E (S n) message st.
Proof.
  unfold Shown, ShownTimes. destruct (GEngine E); simpl; [|done].
  by rewrite <- app_assoc, replicate_cons_app.
Qed.

Lemma ShownTimes_zero message st : ShownTimes E 0 message st = st.
Proof.
  unfold ShownTimes. destruct st as [d screen]. simpl.
  destruct (GEngine E); simpl; by rewrite app_nil_r.
Qed.

(** The loop, with the state it leaves: the message once per record when
    the decode had failed, never otherwise. *)
Lemma LoadInstructionsData_loop_screen success message sounds Data acc n st :
  LoadInstructionsData_loop E success message sounds Data acc
    (ShownTimes E n message st) =
  Returns (fold_left (λ acc r,
             {| InstructionKeyMap :=
                  <[StringToInstructions (InstructionType r) :=
                      InstructionNarrationOf E sounds r]> (InstructionKeyMap acc) |})
             Data acc,
           ShownTimes E (if success then n else n + length Data) message st).
Proof.
  revert acc n. induction Data as [|r Data IH]; intros acc n.
  - simpl. destruct success; [done|]. by rewrite Nat.add_0_r.
  - simpl. unfold mbind, Exec_bind. destruct success; simpl.
    + apply (IH _ n).
    + rewrite AddOnScreenDebugMessage_returns, Shown_ShownTimes, IH.
      by replace (S n + length Data)%nat with (n + S (length Data))%nat by lia.
Qed.

End InstructionsMore.

(** X1: [LoadInstructionsData] always returns, and its map holds, under
    each instruction kind, the narration of the last record whose type
    string maps to that kind; a kind no record maps to has no entry, and the
    map never has more entries than there are records. *)
Theorem X1_InstructionKeyMap_last_record_wins (E : Env) (World : Ptr) (path : FString)
    (NarrativeSounds : list Ptr) (st : ProgramState) :
  ∃ instructionData st',
    LoadInstructionsData E World path NarrativeSounds st = Returns (instructionData, st') ∧
    (∀ before r after,
       I_Data (ReadInstructionsData E path).1.1 = before ++ r :: after →
       (∀ r', r' ∈ after → InstructionKindOf r' ≠ InstructionKindOf r) →
       InstructionKeyMap instructionData !! InstructionKindOf r =
       Some (InstructionNarrationOf E NarrativeSounds r)) ∧
    (∀ kind,
       (∀ r, r ∈ I_Data (ReadInstructionsData E path).1.1 → InstructionKindOf r ≠ kind) →
       InstructionKeyMap instructionData !! kind = None) ∧
    (size (InstructionKeyMap instructionData) ≤
     length (I_Data (ReadInstructionsData E path).1.1))%nat.
Proof.
  destruct (LoadInstructionsData_returns E World path NarrativeSounds st)
    as (st' & Hcall & _).
  eexists _, st'. split; [exact Hcall|].
  rewrite InstructionKeyMap_fold. simpl. split; [|split].
  - intros before r after -> Hafter. by apply AddAll_lookup_last.
  - intros kind Hkind. rewrite AddAll_lookup_other by done. apply lookup_empty.
  - etrans; [apply size_AddAll_le|]. by rewrite map_size_empty.
Qed.

(** X2: a record whose type string matches none of the eight recognized
    strings, even up to case, is filed under [LearnMoreProposed]: when no
    later record maps to that kind, its narration is what the map holds
    there, whatever genuine [LearnMoreProposed] record came before. *)
Theorem X2_unrecognized_type_filed_as_LearnMoreProposed (E : Env) (World : Ptr)
    (path : FString) (NarrativeSounds : list Ptr) (st : ProgramState)
    (before after : list FInstructionRecord) (r : FInstructionRecord) :
  I_Data (ReadInstructionsData E path).1.1 = before ++ r :: after →
  (∀ s k, (s, k) ∈ RecognizedInstructions → FString_eqb (InstructionType r) s = false) →
  (∀ r', r' ∈ after → InstructionKindOf r' ≠ LearnMoreProposed) →
  ∃ instructionData st',
    LoadInstructionsData E World path NarrativeSounds st = Returns (instructionData, st') ∧
    InstructionKeyMap instructionData !! LearnMoreProposed =
    Some (InstructionNarrationOf E NarrativeSounds r).
Proof.
  intros Hdata Hunknown Hafter.
  destruct (LoadInstructionsData_returns E World path NarrativeSounds st)
    as (st' & Hcall & _).
  eexists _, st'. split; [exact Hcall|].
  rewrite InstructionKeyMap_fold, Hdata. simpl.
  assert (Hkind : InstructionKindOf r = LearnMoreProposed)
    by (by apply StringToInstructions_fallthrough).
  rewrite <- Hkind. apply AddAll_lookup_last. intros r' Hr'. rewrite Hkind. by apply Hafter.
Qed.

(** X3: [LoadInstructionsData] leaves the [static] alone and adds to the
    screen the decoder's message once per decoded record when the decoder
    reported a failure and the engine object exists, and nothing
    otherwise. *)
Theorem X3_LoadInstructionsData_message_per_record (E : Env) (World : Ptr)
    (path : FString) (NarrativeSounds : list Ptr) (st : ProgramState) :
  let '(dataStructure, success, message) := ReadInstructionsData E path in
  state (LoadInstructionsData E World path NarrativeSounds st) =
  Some {| DataStructure := DataStructure st;
          OnScreenDebugMessages :=
            OnScreenDebugMessages st ++
            replicate (if negb success && GEngine E
                       then length (I_Data dataStructure) else 0%nat)
                      (DebugMessageOf message) |}.
Proof.
  unfold LoadInstructionsData.
  destruct (ReadInstructionsData E path) as [[dataStructure success] message].
  rewrite <- (ShownTimes_zero E message st) at 1.
  rewrite LoadInstructionsData_loop_screen. simpl. unfold ShownTimes.
  destruct success, (GEngine E); simpl; by rewrite ?app_nil_r.
Qed.

(** ** The checkpoint loader: its messages and its maps *)

Section AddAllDom.
Context {R K V : Type} `{Countable K} (key : R → K) (val : R → V).

(** The keys of a map filled record by record. *)
Lemma dom_AddAll (records : list R) (m : gmap K V) :
  dom (AddAll key val records m) = dom m ∪ list_to_set (key <$> records).
Proof.
  revert m. induction records as [|r records IH]; intros m; simpl.
  - by rewrite union_empty_r_L.
  - unfold AddAll in *. simpl. rewrite IH, dom_insert_L.
    rewrite (union_comm_L {[key r]} (dom m)), <- union_assoc_L. done.
Qed.

End AddAllDom.

Section CheckpointsMore.
Context (E : Env).

(** The loop, with the state it leaves: "Actor Not Found" once per
    unresolved record. *)
Lemma LoadCheckpointsData_loop_screen sounds actors records gd n st :
  AllTagged E actors →
  LoadCheckpointsData_loop E sounds actors records gd
    (ShownTimes E n "Actor Not Found" st) =
  Returns (fold_left (AddCheckpoint E sounds actors) records gd,
           ShownTimes E (n + length (UnresolvedRecords E actors records))
             "Actor Not Found" st).
Proof.
  intros Htag. revert gd n. induction records as [|r records IH]; intros gd n.
  - simpl. by rewrite Nat.add_0_r.
  - rewrite LoadCheckpointsData_loop_cons. unfold UnresolvedRecords.
    rewrite filter_cons.
    destruct (GetActorByName_scan E (CheckpointName r) actors Htag)
      as [(before & a & tag & after & _ & _ & _ & _ & Hget)|[_ Hget]].
    + assert (Hres : ResolvedActor E actors r = Some a)
        by (unfold ResolvedActor; by rewrite Hget).
      rewrite decide_False by (by rewrite Hres). rewrite Hget. apply IH.
    + assert (Hres : ResolvedActor E actors r = None)
        by (unfold ResolvedActor; by rewrite Hget).
      rewrite decide_True by done. rewrite Hget, Shown_ShownTimes, IH. simpl.
      unfold UnresolvedRecords. by rewrite Nat.add_succ_r.
Qed.

End CheckpointsMore.

(** X4: with every live candidate actor tagged, [LoadCheckpointsData]
    leaves on screen one "Actor Not Found" message per record it could not
    resolve, when the engine object exists, and nothing else: the decoder's
    own message never reaches the screen, whether the decode succeeded or
    not.  The [static] then holds the structure the call iterated over. *)
Theorem X4_LoadCheckpointsData_message_per_unresolved_record (E : Env) (World : Ptr)
    (path : FString) (NarrativeSounds CPActors : list Ptr) (st : ProgramState) :
  AllTagged E CPActors →
  state (LoadCheckpointsData E World path NarrativeSounds CPActors st) =
  Some {| DataStructure := Some (IteratedStructure E path st);
          OnScreenDebugMessages :=
            OnScreenDebugMessages st ++
            replicate (if GEngine E
                       then length (UnresolvedRecords E CPActors
                                      (C_Data (IteratedStructure E path st)))
                       else 0%nat)
                      (DebugMessageOf "Actor Not Found") |}.
Proof.
  intros Htag. rewrite LoadCheckpointsData_unfold.
  set (st0 := {| DataStructure := Some (IteratedStructure E path st);
                 OnScreenDebugMessages := OnScreenDebugMessages st |}).
  rewrite <- (ShownTimes_zero E "Actor Not Found" st0).
  by rewrite LoadCheckpointsData_loop_screen.
Qed.

(** X5: with every live candidate actor tagged, the two maps
    [LoadCheckpointsData] returns have the same keys, and these are the
    handles listed in [ActorsToFollow], the null handle included when a
    record is unresolved. *)
Theorem X5_checkpoint_maps_keyed_by_ActorsToFollow (E : Env) (World : Ptr)
    (path : FString) (NarrativeSounds CPActors : list Ptr) (st : ProgramState) :
  AllTagged E CPActors →
  ∃ gameData st',
    LoadCheckpointsData E World path NarrativeSounds CPActors st = Returns (gameData, st') ∧
    dom (ActorFrameMap gameData) = list_to_set (ActorsToFollow gameData) ∧
    dom (ActorKeyMap gameData) = list_to_set (ActorsToFollow gameData) ∧
    ∀ actor, actor ∈ ActorsToFollow gameData ↔
             is_Some (ActorFrameMap gameData !! actor) ∧
             is_Some (ActorKeyMap gameData !! actor).
Proof.
  intros Htag.
  destruct (LoadCheckpointsData_returns E World path NarrativeSounds CPActors st Htag)
    as (st' & Hcall & _).
  eexists _, st'. split; [exact Hcall|].
  rewrite AddCheckpoint_ActorsToFollow, AddCheckpoint_ActorFrameMap,
    AddCheckpoint_ActorKeyMap. simpl.
  rewrite !dom_AddAll, !dom_empty_L, !union_empty_l_L.
  split; [done|]. split; [done|]. intros actor.
  rewrite <- !elem_of_dom, !dom_AddAll, !dom_empty_L, !union_empty_l_L.
  rewrite elem_of_list_to_set. tauto.
Qed.

(** X6: with every live candidate actor tagged, for a record after which
    no record resolves to the same handle, the maps hold under that handle
    the record's frame number and a bundle with its title key, its caption
    keys in their order, its three flags and its learn-more count copied
    unchanged, and its sound names resolved against the pool.  Two records
    that resolve to one actor thus share an entry, that of the later. *)
Theorem X6_checkpoint_entry_of_last_record (E : Env) (World : Ptr) (path : FString)
    (NarrativeSounds CPActors : list Ptr) (st : ProgramState)
    (before after : list FCheckpointRecord) (r : FCheckpointRecord) :
  AllTagged E CPActors →
  C_Data (IteratedStructure E path st) = before ++ r :: after →
  (∀ r', r' ∈ after → ResolvedActor E CPActors r' ≠ ResolvedActor E CPActors r) →
  ∃ gameData st' narrationKeys,
    LoadCheckpointsData E World path NarrativeSounds CPActors st = Returns (gameData, st') ∧
    ActorsToFollow gameData !! length before = Some (ResolvedActor E CPActors r) ∧
    ActorFrameMap gameData !! ResolvedActor E CPActors r = Some (CheckpointFrameNumber r) ∧
    ActorKeyMap gameData !! ResolvedActor E CPActors r = Some narrationKeys ∧
    NK_TitleKey narrationKeys = C_TitleCaptionKey r ∧
    NK_Keys narrationKeys = C_CaptionKeys r ∧
    NK_EnglishNarrationSounds narrationKeys =
      GetSoundByName E (C_EnglishNarrationSoundNames r) NarrativeSounds ∧
    NK_FrenchNarrationSounds narrationKeys =
      GetSoundByName E (C_FrenchNarrationSoundNames r) NarrativeSounds ∧
    m_ShouldStopCamera narrationKeys = ShouldStopCamera r ∧
    m_HasLearnMoreOption narrationKeys = HasLearnMoreOption r ∧
    m_HasQuiz narrationKeys = HasQuiz r ∧
    m_NumOfLearnMoreOptions narrationKeys = NumOfLearnMoreOption r.
Proof.
  intros Htag Hdata Hafter.
  destruct (LoadCheckpointsData_returns E World path NarrativeSounds CPActors st Htag)
    as (st' & Hcall & _).
  eexists _, st', (NarrationKeysOf E NarrativeSounds r). split; [exact Hcall|].
  rewrite AddCheckpoint_ActorsToFollow, AddCheckpoint_ActorFrameMap,
    AddCheckpoint_ActorKeyMap, Hdata. simpl.
  split; [by rewrite list_lookup_fmap, list_lookup_middle|].
  split; [by apply AddAll_lookup_last|].
  split; [by apply AddAll_lookup_last|].
  repeat split. apply (CaptionKeys_copy (C_CaptionKeys r) []).
Qed.

(** X7: a call of [LoadCheckpointsData] that has returned can be repeated:
    from the state it left, a call with the same sound pool and actor list
    returns the same game data, whatever path it is given. *)
Theorem X7_LoadCheckpointsData_repeats (E : Env) (World : Ptr) (path path' : FString)
    (NarrativeSounds CPActors : list Ptr) (st st' : ProgramState)
    (gameData : FCheckpointsGameData) :
  LoadCheckpointsData E World path NarrativeSounds CPActors st = Returns (gameData, st') →
  value (LoadCheckpointsData E World path' NarrativeSounds CPActors st') = Some gameData.
Proof.
  intros Hcall. pose proof Hcall as Hloop. rewrite LoadCheckpointsData_unfold in Hloop.
  pose proof (LoadCheckpointsData_loop_static _ _ _ _ _ _ _ _ Hloop) as Hstatic.
  simpl in Hstatic. rewrite LoadCheckpointsData_unfold.
  unfold IteratedStructure at 1 2. rewrite Hstatic.
  erewrite LoadCheckpointsData_loop_value. by rewrite Hloop.
Qed.

(** ** Actor resolution: what the scan can and cannot do *)

Section ActorsMore.
Context (E : Env).

Lemma GetActorByName_passed_over ActorName cp CPActors :
  PassedOver E ActorName cp →
  GetActorByName E ActorName (cp :: CPActors) = GetActorByName E ActorName CPActors.
Proof.
  destruct cp as [b|]; simpl; [|done]. intros (tag & Hhead & Hcmp).
  rewrite At_head. destruct (Tags E b) as [|tag' tags]; [done|].
  injection Hhead as ->. simpl. by rewrite Hcmp.
Qed.

Lemma GetActorByName_skip ActorName before CPActors :
  Forall (PassedOver E ActorName) before →
  GetActorByName E ActorName (before ++ CPActors) = GetActorByName E ActorName CPActors.
Proof.
  induction 1 as [|cp before Hcp _ IH]; [done|].
  simpl app. by rewrite GetActorByName_passed_over.
Qed.

End ActorsMore.

(** X8: whatever the candidate list, [GetActorByName] ends in one of three
    ways: the range check of [Tags[0]] fails on an untagged actor; or it
    returns null with the flag unset and "Actor Not Found"; or it returns a
    live handle taken from the candidate list, with the flag set and "Actor
    Found".  It never returns a handle that is not in the list, and the flag
    is set exactly when the handle is not null. *)
Theorem X8_GetActorByName_outcomes (E : Env) (ActorName : FString) (CPActors : list Ptr) :
  GetActorByName E ActorName CPActors = ArrayIndexOutOfBounds 0 0 ∨
  GetActorByName E ActorName CPActors = Returns (None, false, "Actor Not Found") ∨
  ∃ a, Some a ∈ CPActors ∧
       GetActorByName E ActorName CPActors = Returns (Some a, true, "Actor Found").
Proof.
  induction CPActors as [|[a|] CPActors IH]; simpl.
  - by right; left.
  - rewrite At_head. destruct (Tags E a) as [|tag tags]; [by left|]. simpl.
    destruct (FName_eqb tag (MakeFName ActorName)).
    + right; right. exists a. split; [apply elem_of_cons; by left|done].
    + destruct IH as [IH|[IH|(b & Hb & IH)]]; [by left|by right; left|].
      right; right. exists b. split; [apply elem_of_cons; by right|done].
  - destruct IH as [IH|[IH|(b & Hb & IH)]]; [by left|by right; left|].
    right; right. exists b. split; [apply elem_of_cons; by right|done].
Qed.

(** X9: a live actor without tags stops [GetActorByName] with a failed
    range check as soon as the scan reaches it, that is when every
    candidate before it is null or carries another first tag; the
    candidates after it are never looked at, a matching one included. *)
Theorem X9_GetActorByName_untagged_actor (E : Env) (ActorName : FString)
    (before after : list Ptr) (a : Addr) :
  Forall (PassedOver E ActorName) before →
  Tags E a = [] →
  GetActorByName E ActorName (before ++ Some a :: after) = ArrayIndexOutOfBounds 0 0.
Proof.
  intros Hbefore Htags. rewrite GetActorByName_skip by done.
  simpl. by rewrite At_head, Htags.
Qed.

(** X10: null entries of the candidate list play no part: [GetActorByName]
    gives the same outcome on the list with its null entries removed. *)
Theorem X10_GetActorByName_ignores_null (E : Env) (ActorName : FString)
    (CPActors : list Ptr) :
  GetActorByName E ActorName (filter IsLive CPActors) =
  GetActorByName E ActorName CPActors.
Proof.
  induction CPActors as [|[a|] CPActors IH].
  - done.
  - rewrite filter_cons, decide_True by done. simpl. by rewrite IH.
  - rewrite filter_cons, decide_False by (by intros []). simpl. apply IH.
Qed.

(** ** Sound and image resolution: membership, growth, empty results *)

Section ResolutionMore.
Context (E : Env).
Implicit Types (pool acc l : list Ptr) (p : Ptr) (names : list FString).

Lemma AppendDistinct_AppendDistinct acc acc' l :
  AppendDistinct acc (AppendDistinct acc' l) =
  AppendDistinct (AppendDistinct acc acc') l.
Proof.
  revert acc'. induction l as [|p l IH]; intros acc'; simpl; [done|].
  destruct (decide (p ∈ acc')) as [Hp|Hp].
  - rewrite (bool_decide_eq_true_2 (p ∈ acc')) by done.
    rewrite bool_decide_eq_true_2 by (apply AppendDistinct_elem_of; by right).
    apply IH.
  - rewrite (bool_decide_eq_false_2 (p ∈ acc')) by done.
    rewrite IH, AppendDistinct_app. simpl.
    by destruct (bool_decide (p ∈ AppendDistinct acc acc')).
Qed.

Lemma AppendDistinct_prefix acc l : acc `prefix_of` AppendDistinct acc l.
Proof.
  revert acc. induction l as [|p l IH]; intros acc; simpl; [done|].
  destruct (bool_decide (p ∈ acc)); [apply IH|].
  etrans; [|apply IH]. by apply prefix_app_r.
Qed.

Lemma filter_Matches_live n pool :
  filter (λ p, Matches E n p) (filter IsLive pool) = filter (λ p, Matches E n p) pool.
Proof.
  induction pool as [|[a|] pool IH]; [done| |].
  - rewrite (filter_cons IsLive), decide_True by done.
    by rewrite !(filter_cons (λ p, Matches E n p)), IH.
  - rewrite (filter_cons IsLive), decide_False by (by intros []).
    by rewrite (filter_cons (λ p, Matches E n p)), decide_False by (by intros []).
Qed.

End ResolutionMore.

(** X11: [GetSoundByName] and [GetImageByName] return exactly the live
    pool entries whose name equals, up to the case of ASCII letters, one of
    the requested names: never a null, never an asset from outside the
    pool, and never more entries than the pool has. *)
Theorem X11_resolution_membership (E : Env) (names : list FString) (pool : list Ptr) :
  (∀ p, p ∈ GetSoundByName E names pool ↔
        p ∈ pool ∧ ∃ a n, p = Some a ∧ n ∈ names ∧
                          CaseFold (GetName E a) = CaseFold n) ∧
  (∀ p, p ∈ GetImageByName E names pool ↔
        p ∈ pool ∧ ∃ a n, p = Some a ∧ n ∈ names ∧
                          CaseFold (GetName E a) = CaseFold n) ∧
  (length (GetSoundByName E names pool) ≤ length pool)%nat ∧
  (length (GetImageByName E names pool) ≤ length pool)%nat.
Proof.
  assert (Hmem : ∀ p, p ∈ GetSoundByName E names pool ↔
            p ∈ pool ∧ ∃ a n, p = Some a ∧ n ∈ names ∧
                              CaseFold (GetName E a) = CaseFold n).
  { intros p. rewrite GetSoundByName_elem_of. split.
    - intros (Hp & n & Hn & Hm). split; [done|]. destruct p as [a|]; [|done].
      exists a, n. repeat split; try done. by apply FString_eqb_CaseFold.
    - intros (Hp & a & n & -> & Hn & Hfold). split; [done|].
      exists n. split; [done|]. by apply FString_eqb_CaseFold. }
  assert (Hlen : (length (GetSoundByName E names pool) ≤ length pool)%nat).
  { apply submseteq_length, NoDup_submseteq; [apply GetSoundByName_NoDup|].
    intros p Hp. by apply Hmem in Hp as [Hp _]. }
  split; [exact Hmem|].
  split; [intros p; rewrite GetImageByName_eq; apply Hmem|].
  split; [exact Hlen|]. by rewrite GetImageByName_eq.
Qed.

(** X12: requesting more names only appends: the result for [names1] is a
    prefix of the result for [names1 ++ names2], which is the result for
    [names1] followed by those entries of the result for [names2] that are
    not in it yet. *)
Theorem X12_resolution_of_appended_names (E : Env) (names1 names2 : list FString)
    (pool : list Ptr) :
  GetSoundByName E (names1 ++ names2) pool =
  AppendDistinct (GetSoundByName E names1 pool) (GetSoundByName E names2 pool) ∧
  GetSoundByName E names1 pool `prefix_of` GetSoundByName E (names1 ++ names2) pool.
Proof.
  assert (Heq : GetSoundByName E (names1 ++ names2) pool =
                AppendDistinct (GetSoundByName E names1 pool)
                               (GetSoundByName E names2 pool)).
  { rewrite (GetSoundByName_spec E names2), AppendDistinct_AppendDistinct. simpl.
    unfold GetSoundByName. by rewrite fold_left_app, GetSoundByName_fold_spec. }
  split; [done|]. rewrite Heq. apply AppendDistinct_prefix.
Qed.

(** X13: the result of [GetSoundByName] is empty exactly when no live pool
    entry matches a requested name, as when no name is requested or the
    pool is empty; and the null entries of the pool play no part. *)
Theorem X13_resolution_empty_and_null (E : Env) (names : list FString) (pool : list Ptr) :
  (GetSoundByName E names pool = [] ↔
   ∀ p n, p ∈ pool → n ∈ names → Matches E n p = false) ∧
  GetSoundByName E names (filter IsLive pool) = GetSoundByName E names pool.
Proof.
  split.
  - split.
    + intros Hempty p n Hp Hn. destruct (Matches E n p) eqn:Hm; [|done].
      assert (Hin : p ∈ GetSoundByName E names pool)
        by (apply GetSoundByName_elem_of; eauto).
      rewrite Hempty in Hin. by apply elem_of_nil in Hin.
    + intros Hnone. apply elem_of_nil_inv. intros p Hp.
      apply GetSoundByName_elem_of in Hp as (Hp & n & Hn & Hm).
      by rewrite (Hnone p n Hp Hn) in Hm.
  - rewrite !GetSoundByName_spec. f_equal. f_equal.
    induction names as [|n names IH]; [done|]. simpl.
    f_equal; [apply filter_Matches_live|apply IH].
Qed.

(** ** The learn-more loader: what a returned narration holds *)

(** X14: every narration [PopulateLearnMoreUI] returns comes from a
    decoded record that owns the current index: it has the record's title
    key and caption keys, the first of the record's image sources as source
    name (the empty string when the record has none), and image and sound
    lists without repetition whose entries are live handles of the pools
    passed in.  The call leaves the state as it was, screen included. *)
Theorem X14_learn_more_narration_contents (E : Env) (JSONpath : FString)
    (CurrentActorIndex : Z) (NarrativeSounds Images : list Ptr) (st : ProgramState) :
  ∃ learnMoreGameData,
    PopulateLearnMoreUI E JSONpath CurrentActorIndex NarrativeSounds Images st =
    Returns (learnMoreGameData, st) ∧
    ∀ narration, narration ∈ LearnMoreData learnMoreGameData →
      ∃ data,
        data ∈ L_Data (ReadLearnMoreData E JSONpath).1.1 ∧
        L_CorrespondingCPIndex data = CurrentActorIndex ∧
        m_TitleKey narration = L_TitleCaptionKey data ∧
        m_Keys narration = L_CaptionKeys data ∧
        m_SourceName narration = default "" (head (ImagesSources data)) ∧
        NoDup (m_Images narration) ∧
        NoDup (m_EnglishNarrationSounds narration) ∧
        NoDup (m_FrenchNarrationSounds narration) ∧
        (∀ p, p ∈ m_Images narration → p ∈ Images ∧ IsLive p) ∧
        (∀ p, p ∈ m_EnglishNarrationSounds narration ++ m_FrenchNarrationSounds narration →
              p ∈ NarrativeSounds ∧ IsLive p).
Proof.
  eexists. split; [apply PopulateLearnMoreUI_spec|]. simpl.
  intros narration (data & -> & Hdata)%list_elem_of_fmap.
  apply list_elem_of_filter in Hdata as [Hindex Hdata].
  assert (Hlive : ∀ names pool p, p ∈ GetSoundByName E names pool → p ∈ pool ∧ IsLive p).
  { intros names pool p (Hp & n & _ & Hm)%GetSoundByName_elem_of.
    split; [done|]. by destruct p. }
  exists data. simpl.
  split; [done|]. split; [done|]. split; [done|]. split; [done|].
  split; [by destruct (ImagesSources data)|].
  split; [rewrite GetImageByName_eq; apply GetSoundByName_NoDup|].
  split; [apply GetSoundByName_NoDup|]. split; [apply GetSoundByName_NoDup|].
  split.
  - intros p Hp. rewrite GetImageByName_eq in Hp. by apply Hlive in Hp.
  - intros p [Hp|Hp]%elem_of_app; by apply Hlive in Hp.
Qed.

(** X15: [PopulateLearnMoreUI] returns an empty sequence exactly when no
    decoded record owns the current index, a file that failed to decode
    included; it never returns more narrations than there are records. *)
Theorem X15_learn_more_empty_result (E : Env) (JSONpath : FString)
    (CurrentActorIndex : Z) (NarrativeSounds Images : list Ptr) (st : ProgramState) :
  ∃ learnMoreGameData,
    PopulateLearnMoreUI E JSONpath CurrentActorIndex NarrativeSounds Images st =
    Returns (learnMoreGameData, st) ∧
    (LearnMoreData learnMoreGameData = [] ↔
     ∀ data, data ∈ L_Data (ReadLearnMoreData E JSONpath).1.1 →
             L_CorrespondingCPIndex data ≠ CurrentActorIndex) ∧
    (length (LearnMoreData learnMoreGameData) ≤
     length (L_Data (ReadLearnMoreData E JSONpath).1.1))%nat.
Proof.
  eexists. split; [apply PopulateLearnMoreUI_spec|]. simpl. split.
  - split.
    + intros Hnil%fmap_nil_inv data Hdata Hindex.
      assert (Hin : data ∈ filter (λ data, L_CorrespondingCPIndex data = CurrentActorIndex)
                             (L_Data (ReadLearnMoreData E JSONpath).1.1))
        by (by apply list_elem_of_filter).
      rewrite Hnil in Hin. by apply elem_of_nil in Hin.
    + intros Hnone.
      replace (filter (λ data, L_CorrespondingCPIndex data = CurrentActorIndex)
                 (L_Data (ReadLearnMoreData E JSONpath).1.1)) with (@nil FLearnMoreRecord);
        [done|].
      symmetry. apply elem_of_nil_inv. intros data [Hindex Hdata]%list_elem_of_filter.
      by apply (Hnone data).
  - rewrite length_fmap. apply length_filter.
Qed.

(** ** The quiz: loading and populating *)

Lemma At_negative {A : Type} (l : list A) (i : Z) :
  i < 0 → At l i = ArrayIndexOutOfBounds i (Z.of_nat (length l)).
Proof.
  intros Hi. unfold At.
  by replace (0 <=? i) with false by (symmetry; apply Z.leb_gt; lia).
Qed.

Lemma PopulateQuizUI_out_of_range (E : Env) (NarrativeSounds : list Ptr)
    (QuizQuestions : FQuizQuestions) (CurrentQuestionIndex : Z) (st : ProgramState) :
  CurrentQuestionIndex < 0 ∨
  Z.of_nat (length (m_Questions QuizQuestions)) ≤ CurrentQuestionIndex →
  PopulateQuizUI E NarrativeSounds QuizQuestions CurrentQuestionIndex st =
  ArrayIndexOutOfBounds CurrentQuestionIndex
    (Z.of_nat (length (m_Questions QuizQuestions))).
Proof.
  intros Hrange. unfold PopulateQuizUI, mbind, Exec_bind, lift.
  destruct Hrange as [Hneg|Hbig];
    [rewrite At_negative by done|rewrite At_out_of_range by done]; done.
Qed.

(** X16: a question index that is negative or not below the number of
    questions stops [PopulateQuizUI] at its first array access, with the
    index and the number of questions in the failed range check; the state
    plays no part. *)
Theorem X16_PopulateQuizUI_question_out_of_range (E : Env) (NarrativeSounds : list Ptr)
    (QuizQuestions : FQuizQuestions) (CurrentQuestionIndex : Z) (st : ProgramState) :
  CurrentQuestionIndex < 0 ∨
  Z.of_nat (length (m_Questions QuizQuestions)) ≤ CurrentQuestionIndex →
  PopulateQuizUI E NarrativeSounds QuizQuestions CurrentQuestionIndex st =
  ArrayIndexOutOfBounds CurrentQuestionIndex
    (Z.of_nat (length (m_Questions QuizQuestions))).
Proof. apply PopulateQuizUI_out_of_range. Qed.

(** X17: [LoadQuizQuestions] always returns what the decoder gave for the
    one file [<content dir>/JSONFiles/AutomatedTour/quiz.json], a failed
    decode included; it adds the decoder's message to the screen exactly
    once when the decode failed and the engine object exists, and leaves
    the state as it was otherwise. *)
Theorem X17_LoadQuizQuestions_effect (E : Env) (st : ProgramState) :
  let '(quizData, success, message) :=
    ReadQuizQuestions E (ProjectContentDir E +:+ "/JSONFiles/AutomatedTour/quiz.json") in
  LoadQuizQuestions E st =
  Returns (quizData,
           if negb success && GEngine E
           then {| DataStructure := DataStructure st;
                   OnScreenDebugMessages :=
                     OnScreenDebugMessages st ++ [DebugMessageOf message] |}
           else st).
Proof.
  unfold LoadQuizQuestions.
  destruct (ReadQuizQuestions E _) as [[quizData success] message].
  unfold mbind, Exec_bind. destruct success; simpl; [done|].
  rewrite AddOnScreenDebugMessage_returns. unfold Shown. by destruct (GEngine E).
Qed.

(** X18: populating from a quiz that was just loaded: when the decoded
    structure has no question at the index, as after a failed decode that
    gave the empty structure, the sequence [LoadQuizQuestions] then
    [PopulateQuizUI] ends in a failed range check for every index. *)
Theorem X18_populate_after_failed_load (E : Env) (NarrativeSounds : list Ptr)
    (CurrentQuestionIndex : Z) (st : ProgramState) :
  m_Questions
    (ReadQuizQuestions E
       (ProjectContentDir E +:+ "/JSONFiles/AutomatedTour/quiz.json")).1.1 = [] →
  (quizData ← LoadQuizQuestions E;
   PopulateQuizUI E NarrativeSounds quizData CurrentQuestionIndex) st =
  ArrayIndexOutOfBounds CurrentQuestionIndex 0.
Proof.
  intros Hempty. unfold mbind at 1. unfold Exec_bind.
  destruct (LoadQuizQuestions_returns E st) as (st' & -> & _).
  rewrite PopulateQuizUI_out_of_range; rewrite Hempty; simpl; [done|].
  destruct (Z.lt_ge_cases CurrentQuestionIndex 0); [by left|right; lia].
Qed.

(** ** The progress bars of the learn-more panel *)

Section Widgets.
Context (D : WidgetDefaults).
Implicit Types (tree : WidgetTree) (box : Addr) (style : FProgressBarStyle)
               (bars : list Ptr) (n : nat).

Lemma lookup_insert_all {V : Type} (l : list Addr) (v : V) (m : gmap Addr V) (k : Addr) :
  fold_left (λ m a, <[a := v]> m) l m !! k = if decide (k ∈ l) then Some v else m !! k.
Proof.
  revert m. induction l as [|a l IH]; intros m; simpl; [done|].
  rewrite IH. destruct (decide (k ∈ l)) as [Hl|Hl].
  - rewrite decide_True; [done|]. apply elem_of_cons. by right.
  - destruct (decide (k = a)) as [->|Hne].
    + rewrite decide_True by (apply elem_of_cons; by left). apply lookup_insert_eq.
    + rewrite decide_False by (intros [?|?]%elem_of_cons; done).
      by apply lookup_insert_ne.
Qed.

Lemma SlotsOf_insert tree box slots progressBars next :
  SlotsOf {| NextObject := next; ProgressBars := progressBars;
             Slots := <[box := slots]> (Slots tree) |} box = slots.
Proof. unfold SlotsOf. simpl. by rewrite lookup_insert_eq. Qed.

Lemma WithProgressBars_zero box style tree : WithProgressBars box style 0 tree = tree.
Proof. unfold WithProgressBars. destruct tree. simpl. by rewrite Nat.add_0_r. Qed.

Lemma WithProgressBars_succ box style n tree :
  WithProgressBars box style n (WithProgressBars box style 1 tree) =
  WithProgressBars box style (S n) tree.
Proof.
  unfold WithProgressBars. simpl NextObject. simpl ProgressBars.
  rewrite Nat.add_1_r. f_equal.
  - lia.
  - destruct n as [|n]; [done|]. simpl Slots.
    rewrite SlotsOf_insert, insert_insert_eq, <- app_assoc. done.
Qed.

(** One turn of the loop on a live box. *)
Lemma LoadLearnMoreProgressBar_loop_turn box style n bars tree :
  LoadLearnMoreProgressBar_loop D (Some box) style (S n) bars tree =
  LoadLearnMoreProgressBar_loop D (Some box) style n
    (bars ++ [Some (NextObject tree)]) (WithProgressBars box style 1 tree).
Proof.
  simpl LoadLearnMoreProgressBar_loop.
  unfold mbind, UI_bind, NewObject_UProgressBar, AddChild, SetSize,
    SetHorizontalAlignment, SetVerticalAlignment, SetPercent, SetBarFillType,
    SetBarFillStyle, SetWidgetStyle, OnSlot, OnProgressBar. simpl.
  f_equal. unfold WithProgressBars. simpl. rewrite Nat.add_1_r. f_equal.
  - rewrite !alter_insert_eq. done.
  - rewrite !SlotsOf_insert, !insert_insert_eq.
    change (SlotsOf {| NextObject := S (NextObject tree);
                       ProgressBars := <[NextObject tree := DefaultProgressBar D]>
                                         (ProgressBars tree);
                       Slots := Slots tree |} box) with (SlotsOf tree box).
    repeat first [ rewrite SlotsOf_insert
                 | rewrite insert_insert_eq
                 | rewrite alter_app_r_alt by lia
                 | rewrite Nat.sub_diag ].
    done.
Qed.

(** The whole loop on a live box. *)
Lemma LoadLearnMoreProgressBar_loop_spec box style n bars tree :
  LoadLearnMoreProgressBar_loop D (Some box) style n bars tree =
  Constructed (bars ++ (Some <$> seq (NextObject tree) n),
               WithProgressBars box style n tree).
Proof.
  revert bars tree. induction n as [|n IH]; intros bars tree.
  - simpl. by rewrite app_nil_r, WithProgressBars_zero.
  - rewrite LoadLearnMoreProgressBar_loop_turn, IH, WithProgressBars_succ.
    simpl NextObject. rewrite Nat.add_1_r. simpl. by rewrite <- app_assoc.
Qed.

(** What the tree holds after [n] turns. *)
Lemma WithProgressBars_SlotsOf box style n tree :
  SlotsOf (WithProgressBars box style n tree) box =
  SlotsOf tree box ++ (FilledSlot <$> (Some <$> seq (NextObject tree) n)).
Proof.
  destruct n as [|n]; [simpl; by rewrite app_nil_r|].
  unfold WithProgressBars. rewrite SlotsOf_insert. by rewrite <- list_fmap_compose.
Qed.

Lemma WithProgressBars_SlotsOf_other box box' style n tree :
  box' ≠ box → SlotsOf (WithProgressBars box style n tree) box' = SlotsOf tree box'.
Proof.
  intros Hne. destruct n as [|n]; [done|].
  unfold WithProgressBars, SlotsOf. simpl. by rewrite lookup_insert_ne.
Qed.

Lemma WithProgressBars_lookup box style n tree a :
  ProgressBars (WithProgressBars box style n tree) !! a =
  if decide (NextObject tree ≤ a < NextObject tree + n)%nat
  then Some (StyledBar style) else ProgressBars tree !! a.
Proof.
  unfold WithProgressBars. simpl. rewrite lookup_insert_all.
  destruct (decide (NextObject tree ≤ a < NextObject tree + n)%nat) as [Hin|Hout].
  - by rewrite decide_True by (apply elem_of_seq; lia).
  - by rewrite decide_False by (rewrite elem_of_seq; lia).
Qed.

End Widgets.

Lemma size_t_of_int_small (n : Z) : 0 ≤ n < 2 ^ 31 → size_t_of_int n = n.
Proof. intros Hn. unfold size_t_of_int. apply Z.mod_small. lia. Qed.

Lemma size_t_of_int_positive (n : Z) :
  - 2 ^ 31 ≤ n < 2 ^ 31 → n ≠ 0 → 0 < size_t_of_int n.
Proof.
  intros Hn Hne. unfold size_t_of_int.
  destruct (Z.lt_ge_cases n 0) as [Hneg|Hpos].
  - rewrite <- (Z_mod_plus_full n 1 (2 ^ 64)). rewrite Z.mod_small; lia.
  - rewrite Z.mod_small; lia.
Qed.

(** X19: for a count from 0 up and a live box, [LoadLearnMoreProgressBar]
    creates that many progress bars and returns them in creation order, all
    distinct and new; it appends to the box, after the slots it had, one
    slot per bar in the same order, each set to fill in size and in both
    alignments; every bar is at zero percent, filled left to right with a
    mask, in the style passed in.  The bars and the slots of other boxes
    that were there before are left as they were. *)
Theorem X19_progress_bars_in_creation_order (D : WidgetDefaults) (box : Addr)
    (progressBarStyle : FProgressBarStyle) (numberOfLearnMoreOptions : Z)
    (tree : WidgetTree) :
  0 ≤ numberOfLearnMoreOptions < 2 ^ 31 →
  ∃ learnMoreProgressBars tree',
    LoadLearnMoreProgressBar D (Some box) progressBarStyle numberOfLearnMoreOptions tree =
    Constructed (learnMoreProgressBars, tree') ∧
    Z.of_nat (length learnMoreProgressBars) = numberOfLearnMoreOptions ∧
    NoDup learnMoreProgressBars ∧
    SlotsOf tree' box = SlotsOf tree box ++ (FilledSlot <$> learnMoreProgressBars) ∧
    (∀ p, p ∈ learnMoreProgressBars →
       ∃ a, p = Some a ∧ (NextObject tree ≤ a)%nat ∧
            ProgressBars tree' !! a = Some (StyledBar progressBarStyle)) ∧
    (∀ box', box' ≠ box → SlotsOf tree' box' = SlotsOf tree box') ∧
    (∀ a, (a < NextObject tree)%nat → ProgressBars tree' !! a = ProgressBars tree !! a).
Proof.
  intros Hn. unfold LoadLearnMoreProgressBar.
  rewrite size_t_of_int_small by done. rewrite LoadLearnMoreProgressBar_loop_spec.
  eexists _, _. split; [done|]. rewrite !app_nil_l.
  split; [rewrite length_fmap, length_seq; lia|].
  split; [apply (NoDup_fmap_2 Some), NoDup_seq|].
  split; [apply WithProgressBars_SlotsOf|].
  split; [|split].
  - intros p (a & -> & Ha%elem_of_seq)%list_elem_of_fmap.
    exists a. split; [done|]. split; [lia|].
    rewrite WithProgressBars_lookup. by rewrite decide_True by lia.
  - intros box' Hne. by apply WithProgressBars_SlotsOf_other.
  - intros a Ha. rewrite WithProgressBars_lookup. by rewrite decide_False by lia.
Qed.

Lemma X19_progress_bars_in_creation_order_witness :
  ∃ learnMoreProgressBars tree',
    LoadLearnMoreProgressBar Demo2.Defaults (Some 7%nat) "Tour" 3 Demo2.Tree =
    Constructed (learnMoreProgressBars, tree') ∧
    Z.of_nat (length learnMoreProgressBars) = 3 ∧
    NoDup learnMoreProgressBars ∧
    SlotsOf tree' 7%nat = SlotsOf Demo2.Tree 7%nat ++ (FilledSlot <$> learnMoreProgressBars) ∧
    (∀ p, p ∈ learnMoreProgressBars →
       ∃ a, p = Some a ∧ (NextObject Demo2.Tree ≤ a)%nat ∧
            ProgressBars tree' !! a = Some (StyledBar "Tour")) ∧
    (∀ box', box' ≠ 7%nat → SlotsOf tree' box' = SlotsOf Demo2.Tree box') ∧
    (∀ a, (a < NextObject Demo2.Tree)%nat →
          ProgressBars tree' !! a = ProgressBars Demo2.Tree !! a).
Proof.
  apply (X19_progress_bars_in_creation_order Demo2.Defaults 7%nat "Tour" 3 Demo2.Tree).
  lia.
Defined.

(** Three bars in the demo tree, evaluated. *)
Example LoadLearnMoreProgressBar_three :
  match LoadLearnMoreProgressBar Demo2.Defaults (Some 7%nat) "Tour" 3 Demo2.Tree with
  | Constructed (bars, tree') =>
      bars = [Some 20; Some 21; Some 22]%nat ∧
      (Content <$> SlotsOf tree' 7%nat) = [Some 3; Some 20; Some 21; Some 22]%nat ∧
      ProgressBars tree' !! 21%nat = Some (StyledBar "Tour")
  | NullDereference => False
  end.
Proof. vm_compute. repeat split. Qed.

(** X20: [LoadLearnMoreProgressBar] is not idempotent on the box: called
    twice with the same count, it creates two disjoint series of bars and
    the box ends with the slots of both, the second series after the
    first. *)
Theorem X20_called_twice_appends_twice (D : WidgetDefaults) (box : Addr)
    (progressBarStyle : FProgressBarStyle) (numberOfLearnMoreOptions : Z)
    (tree : WidgetTree) :
  0 ≤ numberOfLearnMoreOptions < 2 ^ 31 →
  ∃ bars1 bars2 tree'',
    (first ← LoadLearnMoreProgressBar D (Some box) progressBarStyle
               numberOfLearnMoreOptions;
     second ← LoadLearnMoreProgressBar D (Some box) progressBarStyle
                numberOfLearnMoreOptions;
     mret (first, second)) tree = Constructed ((bars1, bars2), tree'') ∧
    Z.of_nat (length bars1) = numberOfLearnMoreOptions ∧
    Z.of_nat (length bars2) = numberOfLearnMoreOptions ∧
    NoDup (bars1 ++ bars2) ∧
    SlotsOf tree'' box =
      SlotsOf tree box ++ (FilledSlot <$> bars1) ++ (FilledSlot <$> bars2).
Proof.
  intros Hn. unfold LoadLearnMoreProgressBar, mbind, UI_bind, mret, UI_ret.
  rewrite size_t_of_int_small by done.
  rewrite !LoadLearnMoreProgressBar_loop_spec.
  eexists _, _, _. split; [done|]. rewrite !app_nil_l.
  set (n := Z.to_nat numberOfLearnMoreOptions).
  split; [rewrite length_fmap, length_seq; lia|].
  split; [rewrite length_fmap, length_seq; lia|].
  split.
  - rewrite <- fmap_app, <- seq_app. apply (NoDup_fmap_2 Some), NoDup_seq.
  - by rewrite !WithProgressBars_SlotsOf, <- app_assoc.
Qed.

Lemma X20_called_twice_appends_twice_witness :
  ∃ bars1 bars2 tree'',
    (first ← LoadLearnMoreProgressBar Demo2.Defaults (Some 7%nat) "Tour" 2;
     second ← LoadLearnMoreProgressBar Demo2.Defaults (Some 7%nat) "Tour" 2;
     mret (first, second)) Demo2.Tree = Constructed ((bars1, bars2), tree'') ∧
    Z.of_nat (length bars1) = 2 ∧
    Z.of_nat (length bars2) = 2 ∧
    NoDup (bars1 ++ bars2) ∧
    SlotsOf tree'' 7%nat =
      SlotsOf Demo2.Tree 7%nat ++ (FilledSlot <$> bars1) ++ (FilledSlot <$> bars2).
Proof.
  apply (X20_called_twice_appends_twice Demo2.Defaults 7%nat "Tour" 2 Demo2.Tree). lia.
Defined.

(** X21: with a null box, [LoadLearnMoreProgressBar] returns no bar and
    leaves the tree as it was when the count is 0, and dereferences the null
    box for every other count: for a positive one at the first [AddChild],
    and for a negative one too, since the loop test compares the count as
    a [size_t], where a negative [int] is a large positive number. *)
Theorem X21_null_box (D : WidgetDefaults) (progressBarStyle : FProgressBarStyle)
    (numberOfLearnMoreOptions : Z) (tree : WidgetTree) :
  - 2 ^ 31 ≤ numberOfLearnMoreOptions < 2 ^ 31 →
  LoadLearnMoreProgressBar D None progressBarStyle numberOfLearnMoreOptions tree =
  if decide (numberOfLearnMoreOptions = 0) then Constructed ([], tree)
  else NullDereference.
Proof.
  intros Hn. unfold LoadLearnMoreProgressBar.
  destruct (decide (numberOfLearnMoreOptions = 0)) as [->|Hne]; [done|].
  pose proof (size_t_of_int_positive _ Hn Hne) as Hpos.
  destruct (Z.to_nat (size_t_of_int numberOfLearnMoreOptions)) as [|n] eqn:Hiter; [lia|].
  done.
Qed.

Lemma X21_null_box_witness :
  LoadLearnMoreProgressBar Demo2.Defaults None "Tour" (-1) Demo2.Tree =
  (if decide (-1 = 0) then Constructed ([], Demo2.Tree) else NullDereference) ∧
  LoadLearnMoreProgressBar Demo2.Defaults None "Tour" 0 Demo2.Tree =
  (if decide (0 = 0) then Constructed ([], Demo2.Tree) else NullDereference).
Proof.
  split.
  - apply (X21_null_box Demo2.Defaults "Tour" (-1) Demo2.Tree). lia.
  - apply (X21_null_box Demo2.Defaults "Tour" 0 Demo2.Tree). lia.
Defined.

(** ** Concrete instances on the small tour *)

Lemma X2_unrecognized_type_filed_as_LearnMoreProposed_witness :
  ∃ instructionData st',
    LoadInstructionsData Demo2.Environment None "instructions.json" Demo.Sounds InitialState =
    Returns (instructionData, st') ∧
    InstructionKeyMap instructionData !! LearnMoreProposed =
    Some (InstructionNarrationOf Demo2.Environment Demo.Sounds
            (Demo.Instruction "LernMoreProposed")).
Proof.
  apply (X2_unrecognized_type_filed_as_LearnMoreProposed Demo2.Environment None
           "instructions.json" Demo.Sounds InitialState
           [Demo.Instruction "LearnMoreProposed"] []
           (Demo.Instruction "LernMoreProposed")).
  - reflexivity.
  - intros s k Hs. unfold RecognizedInstructions in Hs.
    repeat (apply elem_of_cons in Hs as [Hs|Hs]; [injection Hs as -> ->; reflexivity|]).
    by apply elem_of_nil in Hs.
  - intros r' Hr'. by apply elem_of_nil in Hr'.
Defined.

Lemma X4_LoadCheckpointsData_message_per_unresolved_record_witness :
  state (LoadCheckpointsData Demo.Environment None "b.json" Demo.Sounds Demo.Actors
           InitialState) =
  Some {| DataStructure := Some (IteratedStructure Demo.Environment "b.json" InitialState);
          OnScreenDebugMessages :=
            OnScreenDebugMessages InitialState ++
            replicate (if GEngine Demo.Environment
                       then length (UnresolvedRecords Demo.Environment Demo.Actors
                                      (C_Data (IteratedStructure Demo.Environment "b.json"
                                                 InitialState)))
                       else 0%nat)
                      (DebugMessageOf "Actor Not Found") |}.
Proof.
  exact (X4_LoadCheckpointsData_message_per_unresolved_record Demo.Environment None
           "b.json" Demo.Sounds Demo.Actors InitialState Demo_Actors_tagged).
Defined.

(** The tour of "b.json" leaves two messages. *)
Example LoadCheckpointsData_TourB_screen :
(λ messages : list DebugMessage, DebugText <$> messages) <$>
  screen (LoadCheckpointsData Demo.Environment None "b.json" Demo.Sounds Demo.Actors
            InitialState) = Some ["Actor Not Found"; "Actor Not Found"].
Proof. vm_compute. reflexivity. Qed.

Lemma X5_checkpoint_maps_keyed_by_ActorsToFollow_witness :
  ∃ gameData st',
    LoadCheckpointsData Demo.Environment None "b.json" Demo.Sounds Demo.Actors InitialState =
    Returns (gameData, st') ∧
    dom (ActorFrameMap gameData) = list_to_set (ActorsToFollow gameData) ∧
    dom (ActorKeyMap gameData) = list_to_set (ActorsToFollow gameData) ∧
    ∀ actor, actor ∈ ActorsToFollow gameData ↔
             is_Some (ActorFrameMap gameData !! actor) ∧
             is_Some (ActorKeyMap gameData !! actor).
Proof.
  exact (X5_checkpoint_maps_keyed_by_ActorsToFollow Demo.Environment None "b.json"
           Demo.Sounds Demo.Actors InitialState Demo_Actors_tagged).
Defined.

Lemma X6_checkpoint_entry_of_last_record_witness :
  ∃ gameData st' narrationKeys,
    LoadCheckpointsData Demo.Environment None "b.json" Demo.Sounds Demo.Actors InitialState =
    Returns (gameData, st') ∧
    ActorsToFollow gameData !! 0%nat = Some (Some 11%nat) ∧
    ActorFrameMap gameData !! Some 11%nat = Some 30 ∧
    ActorKeyMap gameData !! Some 11%nat = Some narrationKeys ∧
    NK_TitleKey narrationKeys = "CP_2_Title" ∧
    NK_Keys narrationKeys = ["CP_2_Caption"].
Proof.
  destruct (X6_checkpoint_entry_of_last_record Demo.Environment None "b.json"
              Demo.Sounds Demo.Actors InitialState []
              [Demo.Checkpoint "Ghost" 60; Demo.Checkpoint "Phantom" 90]
              (Demo.Checkpoint "CP_2" 30) Demo_Actors_tagged eq_refl)
    as (gameData & st' & narrationKeys & Hcall & Hactor & Hframe & Hkeys & Htitle & Hcaptions & _).
  { intros r' Hr'.
    repeat (apply elem_of_cons in Hr' as [->|Hr']; [vm_compute; discriminate|]).
    by apply elem_of_nil in Hr'. }
  exists gameData, st', narrationKeys.
  split; [exact Hcall|]. split; [exact Hactor|]. split; [exact Hframe|].
  split; [exact Hkeys|]. split; [exact Htitle|exact Hcaptions].
Defined.

Lemma X7_LoadCheckpointsData_repeats_witness :
  ∃ gameData st',
    LoadCheckpointsData Demo.Environment None "a.json" Demo.Sounds Demo.Actors InitialState =
    Returns (gameData, st') ∧
    value (LoadCheckpointsData Demo.Environment None "b.json" Demo.Sounds Demo.Actors st') =
    Some gameData.
Proof.
  destruct (LoadCheckpointsData Demo.Environment None "a.json" Demo.Sounds Demo.Actors
              InitialState) as [[gameData st']|i n] eqn:Hcall.
  - exists gameData, st'. split; [reflexivity|].
    exact (X7_LoadCheckpointsData_repeats Demo.Environment None "a.json" "b.json"
             Demo.Sounds Demo.Actors InitialState st' gameData Hcall).
  - vm_compute in Hcall. discriminate Hcall.
Defined.

Lemma X9_GetActorByName_untagged_actor_witness :
  GetActorByName Demo.Environment "CP_1" ([None] ++ Some 12%nat :: [Some 10%nat]) =
  ArrayIndexOutOfBounds 0 0.
Proof.
  apply (X9_GetActorByName_untagged_actor Demo.Environment "CP_1" [None] [Some 10%nat]
           12%nat).
  - apply Forall_cons. split; [exact I|apply Forall_nil_2].
  - reflexivity.
Defined.

Lemma X16_PopulateQuizUI_question_out_of_range_witness :
  PopulateQuizUI Demo.Environment Demo.Sounds Demo.Quiz 1 InitialState =
  ArrayIndexOutOfBounds 1 (Z.of_nat (length (m_Questions Demo.Quiz))) ∧
  PopulateQuizUI Demo.Environment Demo.Sounds Demo.Quiz (-1) InitialState =
  ArrayIndexOutOfBounds (-1) (Z.of_nat (length (m_Questions Demo.Quiz))).
Proof.
  split.
  - apply (X16_PopulateQuizUI_question_out_of_range Demo.Environment Demo.Sounds
             Demo.Quiz 1 InitialState). right. simpl. lia.
  - apply (X16_PopulateQuizUI_question_out_of_range Demo.Environment Demo.Sounds
             Demo.Quiz (-1) InitialState). left. lia.
Defined.

Lemma X18_populate_after_failed_load_witness :
  (quizData ← LoadQuizQuestions Demo.Environment;
   PopulateQuizUI Demo.Environment Demo.Sounds quizData 0) InitialState =
  ArrayIndexOutOfBounds 0 0.
Proof.
  apply (X18_populate_after_failed_load Demo.Environment Demo.Sounds 0 InitialState).
  reflexivity.
Defined.

(** ** The instruction kinds, once more *)

(** X22: [StringToInstructions] does not see the case of ASCII letters:
    two strings with the same case-folded spelling map to the same kind.
    Every kind is the image of some string, so the default is not the only
    way to [LearnMoreProposed].  But the name of an enumerator maps back to
    that enumerator for seven kinds only: the code tests for
    "Inactivity_Instruction" where the enumerator is spelled
    [Inactivty_Instruction], so that enumerator's own name falls through to
    [LearnMoreProposed]. *)
Theorem X22_StringToInstructions_case_and_names :
  (∀ s s', CaseFold s = CaseFold s' → StringToInstructions s = StringToInstructions s') ∧
  (∀ kind, ∃ s, StringToInstructions s = kind) ∧
  (∀ kind, StringToInstructions (EnumeratorName kind) = kind ↔
           kind ≠ Inactivty_Instruction) ∧
  StringToInstructions (EnumeratorName Inactivty_Instruction) = LearnMoreProposed.
Proof.
  split; [|split; [|split]].
  - intros s s' Hfold. apply FString_eqb_CaseFold in Hfold.
    unfold StringToInstructions.
    repeat match goal with
    | |- context [FString_eqb s ?x] => rewrite (FString_eqb_congr s s' x Hfold)
    end.
    done.
  - intros kind. destruct kind.
    + by exists "LearnMoreProposed".
    + by exists "LearnMoreCompleted".
    + by exists "HowToSelection".
    + by exists "QuizProposed".
    + by exists "LearnMoreNavigation".
    + by exists "MiniGameQuiz_Context".
    + by exists "MiniGameQuiz_QuestionInstruction".
    + by exists "Inactivity_Instruction".
  - intros kind. destruct kind; split; try done; try discriminate.
  - reflexivity.
Qed.

(** ** Actor resolution: only the first tag *)

(** X24: [GetActorByName] looks at the first tag of an actor only: a live
    actor whose first tag is another name is passed over, whatever its
    other tags, and the outcome is that of the rest of the list. *)
Theorem X24_GetActorByName_first_tag_only (E : Env) (ActorName : FString) (a : Addr)
    (tag : FName) (CPActors : list Ptr) :
  head (Tags E a) = Some tag →
  FName_eqb tag (MakeFName ActorName) = false →
  GetActorByName E ActorName (Some a :: CPActors) = GetActorByName E ActorName CPActors.
Proof.
  intros Hhead Hcmp. apply GetActorByName_passed_over. simpl. by exists tag.
Qed.

Lemma X24_GetActorByName_first_tag_only_witness :
  "Radar" ∈ Tags Demo.Environment 11%nat ∧
  GetActorByName Demo.Environment "Radar" (Some 11%nat :: []) =
  GetActorByName Demo.Environment "Radar" [].
Proof.
  split.
  - apply elem_of_cons. right. apply elem_of_cons. by left.
  - apply (X24_GetActorByName_first_tag_only Demo.Environment "Radar" 11%nat "CP_2" []);
      reflexivity.
Defined.
